(** * A private star-registry blockchain (src/blockchain.js)

    Shallow embedding of the [Blockchain] class: the chain array, the
    height counter, [_addBlock], [submitStar], [getStarsByWalletAddress]
    and [validateChain].

    Blocks are JavaScript objects that [_addBlock] mutates in place and
    that the chain array holds by reference, so the store keeps the block
    objects in a heap and the chain is a list of references into it.  A
    method that returns a promise is modelled by the way that promise
    settles, and calls are taken one at a time, each run until its
    promise has settled. *)

From Stdlib Require Import ZArith Lia Ascii String.
From stdpp Require Import base list strings.

Local Open Scope string_scope.
Local Open Scope list_scope.
Local Open Scope Z_scope.

#[local] Set Warnings "-register-all".

(** ** JavaScript values *)

(** Numbers.  Every number the class computes with is an integer far below
    2^53 (a length, an index, a count of seconds) or the result of
    [parseInt], which is an integer or [NaN]. *)
Inductive num : Type :=
  | NaN
  | Num (z : Z).

(** Values.  An object is the list of its own properties in insertion
    order, which is the order [JSON.stringify] writes them in (the keys
    here are names, not array indices, which JavaScript would put first).
    A BigInt is the value that [JSON.stringify] refuses: it throws on one,
    wherever it stands in what is serialised. *)
Inductive value : Type :=
  | VUndefined
  | VNull
  | VNum (n : num)
  | VStr (s : string)
  | VObj (props : list (string * value))
  | VBigInt (z : Z).

Abbreviation object := (list (string * value)) (only parsing).

(** [o.k]: the property, or [undefined] when the object has none. *)
Fixpoint get_prop (k : string) (o : object) : value :=
  match o with
  | [] => VUndefined
  | (k', v) :: rest => if String.eqb k k' then v else get_prop k rest
  end.

(** [o.k = v]: overwrite the property where it stands, or add it last. *)
Fixpoint set_prop (k : string) (v : value) (o : object) : object :=
  match o with
  | [] => [(k, v)]
  | (k', v') :: rest =>
      if String.eqb k k' then (k, v) :: rest else (k', v') :: set_prop k v rest
  end.

(** [a === b].  Two objects are equal only when they are the same
    reference; payload objects carry no identity here and every one of them
    stems from its own literal or its own decoding, so they compare
    unequal. *)
Definition strict_eq (a b : value) : bool :=
  match a, b with
  | VUndefined, VUndefined => true
  | VNull, VNull => true
  | VNum (Num x), VNum (Num y) => Z.eqb x y
  | VStr s, VStr t => String.eqb s t
  | VBigInt x, VBigInt y => Z.eqb x y
  | _, _ => false
  end.

(** [a - b] and [a >= b] on numbers: [NaN] absorbs the subtraction and
    makes every comparison false. *)
Definition num_sub (a b : num) : num :=
  match a, b with
  | Num x, Num y => Num (x - y)
  | _, _ => NaN
  end.

Definition num_geb (a b : num) : bool :=
  match a, b with
  | Num x, Num y => Z.geb x y
  | _, _ => false
  end.

(** ** Strings

    A string is the sequence of its bytes in UTF-8, which is what the
    digest is computed on. *)

Definition digit_char (d : Z) : ascii := ascii_of_nat (48 + Z.to_nat d).

(** Decimal digits of a non-negative integer, most significant first. *)
Fixpoint digits_fuel (fuel : nat) (n : Z) (acc : string) : string :=
  match fuel with
  | O => acc
  | S fuel' =>
      let acc' := String (digit_char (n mod 10)) acc in
      if n <? 10 then acc' else digits_fuel fuel' (n / 10) acc'
  end.

Definition digits (n : Z) : string :=
  digits_fuel (S (Z.to_nat (Z.log2 n))) n "".

(** [Number.prototype.toString] on an integer (below 10^21 in absolute
    value, where the exponent notation starts). *)
Definition Z_toString (z : Z) : string :=
  if z <? 0 then String "-" (digits (- z)) else digits z.

(** The first [n] characters of a string. *)
Fixpoint string_take (n : nat) (s : string) : string :=
  match n, s with
  | S n', String c rest => String c (string_take n' rest)
  | _, _ => ""
  end.

(** [s.slice(0, -3)]: the string without its last three characters, empty
    when it has three or fewer. *)
Definition slice_0_m3 (s : string) : string :=
  string_take (String.length s - 3)%nat s.

(** [s.split(sep)] for a one-character separator: never empty. *)
Fixpoint split (sep : ascii) (s : string) : list string :=
  match s with
  | "" => [""]
  | String c rest =>
      if Ascii.eqb c sep then "" :: split sep rest
      else match split sep rest with
           | field :: fields => String c field :: fields
           | [] => [String c ""]
           end
  end.

(** [a[i]] on an array of strings: [undefined] out of range. *)
Definition index (a : list string) (i : nat) : value :=
  match a !! i with
  | Some s => VStr s
  | None => VUndefined
  end.

(** [ToString] as [parseInt] applies it to its argument. *)
Definition ToString (v : value) : string :=
  match v with
  | VUndefined => "undefined"
  | VNull => "null"
  | VNum NaN => "NaN"
  | VNum (Num z) => Z_toString z
  | VStr s => s
  | VObj _ => "[object Object]"
  | VBigInt z => Z_toString z
  end.

(** White space that [parseInt] skips: the tabulations, the line
    terminators and the space separators of Unicode, by their bytes. *)
Definition is_white_space (c : ascii) : bool :=
  let n := nat_of_ascii c in
  ((9 <=? n) && (n <=? 13) || (n =? 32))%nat.

(** The second and third byte of a three-byte white space whose first byte
    is [n1]: U+1680, U+2000 to U+200A, U+2028, U+2029, U+202F, U+205F,
    U+3000 and U+FEFF. *)
Definition is_wide_white_space (n1 n2 n3 : nat) : bool :=
  ((n1 =? 225) && (n2 =? 154) && (n3 =? 128)
   || (n1 =? 226) && (n2 =? 128)
      && ((128 <=? n3) && (n3 <=? 138) || (n3 =? 168) || (n3 =? 169) || (n3 =? 175))
   || (n1 =? 226) && (n2 =? 129) && (n3 =? 159)
   || (n1 =? 227) && (n2 =? 128) && (n3 =? 128)
   || (n1 =? 239) && (n2 =? 187) && (n3 =? 191))%nat.

Fixpoint skip_white_space (s : string) : string :=
  match s with
  | String c1 rest1 =>
      let n1 := nat_of_ascii c1 in
      if is_white_space c1 then skip_white_space rest1
      else if (n1 =? 194)%nat then
        (* U+00A0 *)
        match rest1 with
        | String c2 rest2 =>
            if (nat_of_ascii c2 =? 160)%nat then skip_white_space rest2 else s
        | "" => s
        end
      else if ((n1 =? 225) || (n1 =? 226) || (n1 =? 227) || (n1 =? 239))%nat then
        match rest1 with
        | String c2 (String c3 rest3) =>
            if is_wide_white_space n1 (nat_of_ascii c2) (nat_of_ascii c3)
            then skip_white_space rest3 else s
        | _ => s
        end
      else s
  | "" => ""
  end.

(** The value of a character as a digit in the given radix. *)
Definition digit_value (radix : Z) (c : ascii) : option Z :=
  let n := Z.of_nat (nat_of_ascii c) in
  let d := if (48 <=? n) && (n <=? 57) then Some (n - 48)
           else if (97 <=? n) && (n <=? 122) then Some (n - 87)
           else if (65 <=? n) && (n <=? 90) then Some (n - 55)
           else None in
  match d with
  | Some x => if x <? radix then Some x else None
  | None => None
  end.

(** The longest prefix of digits, read left to right; [None] when the
    string does not start with a digit. *)
Fixpoint read_digits (radix : Z) (s : string) (acc : option Z) : option Z :=
  match s with
  | "" => acc
  | String c rest =>
      match digit_value radix c with
      | Some d => read_digits radix rest (Some (radix * default 0 acc + d))
      | None => acc
      end
  end.

(** [parseInt(s)] without a radix argument. *)
Definition parseInt_string (s : string) : num :=
  let s1 := skip_white_space s in
  let '(sign, s2) :=
    match s1 with
    | String "-" rest => (-1, rest)
    | String "+" rest => (1, rest)
    | _ => (1, s1)
    end in
  let '(radix, s3) :=
    match s2 with
    | String "0" (String "x" rest) => (16, rest)
    | String "0" (String "X" rest) => (16, rest)
    | _ => (10, s2)
    end in
  match read_digits radix s3 None with
  | Some m => Num (sign * m)
  | None => NaN
  end.

Definition parseInt (v : value) : num := parseInt_string (ToString v).

(** A number too long for a double is rounded by the real [parseInt]; the
    clock stays below 2^53, so the sign of a difference with it and its
    comparison with 300 are the same for the rounded and the exact value. *)

(** *** JSON.stringify *)

(** What is thrown: an [Error] made by the class, or a [TypeError] of the
    language. *)
Inductive error : Type :=
  | Error (message : string)
  | TypeError (message : string).

Definition double_quote : ascii := "034"%char.

Definition hex_char (d : nat) : ascii :=
  if (d <? 10)%nat then ascii_of_nat (48 + d) else ascii_of_nat (87 + d).

(** How one character stands inside a JSON string. *)
Definition JSON_escape_char (c : ascii) : string :=
  let n := nat_of_ascii c in
  if (n =? 34)%nat then String "\" (String double_quote "")
  else if (n =? 92)%nat then "\\"
  else if (n =? 8)%nat then "\b"
  else if (n =? 9)%nat then "\t"
  else if (n =? 10)%nat then "\n"
  else if (n =? 12)%nat then "\f"
  else if (n =? 13)%nat then "\r"
  else if (n <? 32)%nat then
    "\u00" +:+ String (hex_char (n / 16)) (String (hex_char (n mod 16)) "")
  else String c "".

Fixpoint JSON_escape (s : string) : string :=
  match s with
  | "" => ""
  | String c rest => JSON_escape_char c +:+ JSON_escape rest
  end.

Definition JSON_quote (s : string) : string :=
  String double_quote (JSON_escape s +:+ String double_quote "").

(** [JSON.stringify(v)] returns or throws.  [None] stands for the
    [undefined] it returns on [undefined]; a property whose value is
    [undefined] is left out; on a BigInt, at any depth, it throws. *)
Fixpoint JSON_stringify (v : value) : error + option string :=
  match v with
  | VUndefined => inr None
  | VNull => inr (Some "null")
  | VNum NaN => inr (Some "null")
  | VNum (Num z) => inr (Some (Z_toString z))
  | VStr s => inr (Some (JSON_quote s))
  | VObj props =>
      let fix members (ps : list (string * value)) : error + list string :=
        match ps with
        | [] => inr []
        | (k, x) :: ps' =>
            match JSON_stringify x with
            | inl e => inl e
            | inr sx =>
                match members ps' with
                | inl e => inl e
                | inr rest =>
                    inr match sx with
                        | Some text => (JSON_quote k +:+ ":" +:+ text) :: rest
                        | None => rest
                        end
                end
            end
        end in
      match members props with
      | inl e => inl e
      | inr ms => inr (Some ("{" +:+ String.concat "," ms +:+ "}"))
      end
  | VBigInt _ => inl (TypeError "Do not know how to serialize a BigInt")
  end.

(** The members of an object as [JSON.stringify] writes them. *)
Fixpoint JSON_members (ps : list (string * value)) : error + list string :=
  match ps with
  | [] => inr []
  | (k, x) :: ps' =>
      match JSON_stringify x with
      | inl e => inl e
      | inr sx =>
          match JSON_members ps' with
          | inl e => inl e
          | inr rest =>
              inr match sx with
                  | Some text => (JSON_quote k +:+ ":" +:+ text) :: rest
                  | None => rest
                  end
          end
      end
  end.

(** [JSON.stringify(o)] on an object: a string, when it does not throw. *)
Definition JSON_stringify_object (o : object) : error + string :=
  match JSON_stringify (VObj o) with
  | inl e => inl e
  | inr text => inr (default "" text)
  end.

(** The text of an object that [JSON.stringify] does not throw on. *)
Definition JSON_text (o : object) : string :=
  match JSON_stringify_object o with
  | inr text => text
  | inl _ => ""
  end.

(** [JSON.stringify] does not throw on the value. *)
Definition accepted (v : value) : Prop :=
  ∃ text : option string, JSON_stringify v = inr text.

(** ** Promises *)

(** How a promise settles: [Pending] is the promise that never does. *)
Inductive outcome (A : Type) : Type :=
  | Resolved (a : A)
  | Rejected (e : error)
  | Pending.
Arguments Resolved {A} a.
Arguments Rejected {A} e.
Arguments Pending {A}.

(** The run of (a part of) an async function body: it reaches its end with
    a value, throws, or is suspended on a promise that never settles. *)
Inductive exec (A : Type) : Type :=
  | Return (a : A)
  | Throw (e : error)
  | Hang.
Arguments Return {A} a.
Arguments Throw {A} e.
Arguments Hang {A}.

#[global] Instance exec_ret : MRet exec := fun _ a => Return a.
#[global] Instance exec_bind : MBind exec := fun _ _ f m =>
  match m with
  | Return a => f a
  | Throw e => Throw e
  | Hang => Hang
  end.

(** [await p]: a rejection is thrown at the point of the [await]. *)
Definition await {A} (p : outcome A) : exec A :=
  match p with
  | Resolved a => Return a
  | Rejected e => Throw e
  | Pending => Hang
  end.

(** What the executor of [new Promise((resolve, reject) => ...)] did last. *)
Inductive settle (A : Type) : Type :=
  | resolve (a : A)
  | reject (e : error).
Arguments resolve {A} a.
Arguments reject {A} e.

(** [new Promise(async (resolve, reject) => body)].  The promise is settled
    by the call of [resolve] or [reject] only: the promise that the async
    executor itself returns is dropped, so an exception that escapes the
    body rejects that one and leaves the promise handed to the caller
    pending for ever. *)
Definition settled {A} (body : exec (settle A)) : outcome A :=
  match body with
  | Return (resolve a) => Resolved a
  | Return (reject e) => Rejected e
  | Throw _ => Pending
  | Hang => Pending
  end.

(** [for (var i = start; i < start + count; i++) body], threading the
    variables the body updates. *)
Fixpoint for_loop {S : Type} (i : nat) (count : nat)
    (body : nat -> S -> exec S) (s : S) : exec S :=
  match count with
  | O => Return s
  | Datatypes.S count' => s' ← body i s; for_loop (Datatypes.S i) count' body s'
  end.

(** ** Blocks and the chain *)

(** A block is an object with the properties [height], [time],
    [previousBlockHash], [hash] and [body]; which of them a new block has,
    and in which order, is fixed by its constructor. *)
Abbreviation Block := (list (string * value)) (only parsing).

(** A reference to a block object. *)
Abbreviation loc := nat (only parsing).

(** The [Blockchain] instance: [this.chain], [this.height], and the block
    objects that exist. *)
Record Blockchain : Type := {
  objects : list Block;
  chain : list loc;
  height : Z
}.

(** The collaborators that are not part of blockchain.js: the digest of
    crypto-js, the verification of bitcoinjs-message, and the [Block] class
    of block.js with its constructor and its two methods. *)
Class Collaborators : Type := {
  (** [SHA256(s).toString()]: the digest in hexadecimal. *)
  SHA256 : string -> string;
  (** [bitcoinMessage.verify(message, address, signature)]: a boolean, or
      an exception on malformed arguments. *)
  bitcoinMessage_verify : string -> value -> value -> error + bool;
  (** [new BlockClass.Block(data)]. *)
  Block_new : value -> Block;
  (** [block.validate()]: a promise of whether the stored hash is still the
      hash of the block. *)
  Block_validate : Block -> outcome bool;
  (** [block.getBData()]: a promise of the decoded body. *)
  Block_getBData : Block -> outcome value
}.

(** *** The store monad

    The body of a method runs over the instance: it reads and mutates the
    chain, the height and the block objects, and ends as [exec] says.  What
    was mutated before an exception stays mutated. *)
Definition M (A : Type) : Type := Blockchain -> Blockchain * exec A.

#[global] Instance M_ret : MRet M := fun _ a self => (self, Return a).
#[global] Instance M_bind : MBind M := fun _ _ f m self =>
  match m self with
  | (self', Return a) => f a self'
  | (self', Throw e) => (self', Throw e)
  | (self', Hang) => (self', Hang)
  end.

(** [try { body } catch (error) { handler(error) }]. *)
Definition try_catch {A} (body : M A) (handler : error -> M A) : M A :=
  fun self =>
    match body self with
    | (self', Throw e) => handler e self'
    | result => result
    end.

(** A promise built from an async executor over the instance. *)
Definition new_Promise {A} (executor : M (settle A))
    (self : Blockchain) : Blockchain * outcome A :=
  let '(self', r) := executor self in (self', settled r).

(** The promise of an [async] function: resolved by its return, rejected
    by an exception that escapes it. *)
Definition async {A} (body : M A) (self : Blockchain) : Blockchain * outcome A :=
  match body self with
  | (self', Return a) => (self', Resolved a)
  | (self', Throw e) => (self', Rejected e)
  | (self', Hang) => (self', Pending)
  end.

(** A call that returns or throws, inside the body of a method. *)
Definition throwing {A} (r : error + A) : M A :=
  fun self =>
    (self, match r with
           | inr a => Return a
           | inl e => Throw e
           end).

(** [await] on the promise of a method of the instance. *)
Definition await_call {A} (method : Blockchain -> Blockchain * outcome A) : M A :=
  fun self => let '(self', p) := method self in (self', await p).

(** [await] on the promise of a method that only reads the instance. *)
Definition await_read {A} (method : Blockchain -> outcome A) : M A :=
  fun self => (self, await (method self)).

Definition not_an_object : error :=
  TypeError "Cannot access properties of undefined".

(** [self.chain.length]. *)
Definition chain_length : M nat :=
  fun self => (self, Return (length (chain self))).

(** [self.chain[i]] used as a block: a reference in the chain array. *)
Definition chain_at (i : nat) : M loc :=
  fun self =>
    match chain self !! i with
    | Some block => (self, Return block)
    | None => (self, Throw not_an_object)
    end.

(** The object a reference stands for. *)
Definition deref (block : loc) : M Block :=
  fun self =>
    match objects self !! block with
    | Some o => (self, Return o)
    | None => (self, Throw not_an_object)
    end.

(** [block.k]. *)
Definition read (block : loc) (k : string) : M value :=
  o ← deref block; mret (get_prop k o).

(** [block.k = v]: the object is mutated where it lives, so every
    reference to it sees the new value. *)
Definition assign (block : loc) (k : string) (v : value) : M unit :=
  fun self =>
    match objects self !! block with
    | Some o =>
        ({| objects := <[block := set_prop k v o]> (objects self);
            chain := chain self;
            height := height self |}, Return tt)
    | None => (self, Throw not_an_object)
    end.

(** [this.chain.push(block)]. *)
Definition push (block : loc) : M unit :=
  fun self =>
    ({| objects := objects self;
        chain := chain self ++ [block];
        height := height self |}, Return tt).

(** [this.height = h]. *)
Definition set_height (h : Z) : M unit :=
  fun self =>
    ({| objects := objects self; chain := chain self; height := h |}, Return tt).

(** [this.chain[i]] as the object: what a method that only reads works on. *)
Definition block_at (self : Blockchain) (i : nat) : exec Block :=
  match chain self !! i with
  | Some block =>
      match objects self !! block with
      | Some o => Return o
      | None => Throw not_an_object
      end
  | None => Throw not_an_object
  end.

(** [v.k] on a value: an exception on [undefined] and [null], and
    [undefined] on a string, a number or a BigInt, which have no such
    property of their own. *)
Definition property (v : value) (k : string) : exec value :=
  match v with
  | VUndefined | VNull => Throw not_an_object
  | VObj o => Return (get_prop k o)
  | VNum _ | VStr _ | VBigInt _ => Return VUndefined
  end.

(** What [validateChain] resolves with: the string 'Blockchain is valid',
    or the object with the number of errors under 'Block errors' and the
    error log under 'Blocks'. *)
Inductive report : Type :=
  | Valid
  | Invalid (errors : nat) (blocks : list nat).

(** [validate === 'Blockchain is valid']. *)
Definition is_valid (r : report) : bool :=
  match r with
  | Valid => true
  | Invalid _ _ => false
  end.

Section Blockchain.
Context `{Collaborators}.

(** [new BlockClass.Block(data)]: a new object, and the reference to it. *)
Definition new_Block (data : value) : M loc :=
  fun self =>
    ({| objects := objects self ++ [Block_new data];
        chain := chain self;
        height := height self |}, Return (length (objects self))).

(** One turn of the loop of [validateChain] (lines 225-236), for any
    self-check. *)
Definition validateChain_step (validate : Block -> outcome bool)
    (self : Blockchain) (i : nat) (errorLog : list nat) : exec (list nat) :=
  block ← block_at self i;
  ok ← await (validate block);
  let errorLog1 := if negb ok then errorLog ++ [i] else errorLog in
  next ← block_at self (i + 1);
  let blockHash := get_prop "hash" block in
  let previousHash := get_prop "previousBlockHash" next in
  mret (if negb (strict_eq blockHash previousHash)
        then errorLog1 ++ [i] else errorLog1).

Definition validateChain_with (validate : Block -> outcome bool)
    (self : Blockchain) : outcome report :=
  settled (
    errorLog ← for_loop 0 (length (chain self) - 1)
                 (validateChain_step validate self) [];
    if (0 <? length errorLog)%nat
    then mret (resolve (Invalid (length errorLog) errorLog))
    else mret (resolve Valid)).

(** [validateChain()] (lines 220-247). *)
Definition validateChain (self : Blockchain) : outcome report :=
  validateChain_with Block_validate self.

(** [_addBlock(block)] (lines 58-89); [now] is what [new Date().getTime()]
    returns on line 65, in milliseconds.  When [JSON.stringify(block)]
    throws on line 71, the height, the time and the link are assigned
    already, nothing is pushed, and the [catch] rejects with what was
    thrown. *)
Definition _addBlock (block : loc) (now : Z) : Blockchain -> Blockchain * outcome loc :=
  new_Promise (
    try_catch (
      n ← chain_length;
      assign block "height" (VNum (Num (Z.of_nat n)));;
      assign block "time" (VStr (slice_0_m3 (Z_toString now)));;
      (if (0 <? n)%nat then
         previous ← chain_at (n - 1);
         previousHash ← read previous "hash";
         assign block "previousBlockHash" previousHash
       else mret tt);;
      o ← deref block;
      text ← throwing (JSON_stringify_object o);
      assign block "hash" (VStr (SHA256 text));;
      push block;;
      n' ← chain_length;
      set_height (Z.of_nat n' - 1);;
      validate ← await_read validateChain;
      if is_valid validate then mret (resolve block)
      else mret (reject (Error "Blockchain is not valid!")))
    (fun error => mret (reject error))).

(** [initializeChain()] (lines 36-41). *)
Definition initializeChain (now : Z) : Blockchain -> Blockchain * outcome unit :=
  async (
    fun self =>
      (if height self =? -1 then
         block ← new_Block (VObj [("data", VStr "Genesis Block")]);
         await_call (_addBlock block now);;
         mret tt
       else mret tt) self).

(** [new Blockchain()] (lines 25-29).  The constructor does not wait for
    the promise of [initializeChain], and need not: with an empty chain the
    bodies of [initializeChain], [_addBlock] and [validateChain] run to
    their end before the first [await] gives the control back. *)
Definition Blockchain_new (now : Z) : Blockchain :=
  fst (initializeChain now {| objects := []; chain := []; height := -1 |}).

(** [submitStar(address, message, signature, star)] (lines 124-154);
    [now] is the clock read on line 129 and [now_add] the one read by
    [_addBlock].  Line 128 calls [message.split], the method of a string:
    on any other value the call throws, and it stands before the [try], so
    the exception escapes the async executor. *)
Definition submitStar (address message signature star : value)
    (now now_add : Z) : Blockchain -> Blockchain * outcome loc :=
  new_Promise (
    match message with
    | VStr message =>
        let messageTime := parseInt (index (split ":" message) 1) in
        let currentTime := parseInt (VStr (slice_0_m3 (Z_toString now))) in
        let maxElapsedTime := Num (60 * 5) in
        try_catch (
          if num_geb (num_sub currentTime messageTime) maxElapsedTime
          then mret (reject (Error "5 minute validation time has passed"))
          else
            validation ← throwing (bitcoinMessage_verify message address signature);
            if negb validation
            then mret (reject (Error "Verification is invalid"))
            else
              newBlock ← new_Block (VObj [("owner", address); ("star", star)]);
              await_call (_addBlock newBlock now_add);;
              mret (resolve newBlock))
        (fun error => mret (reject error))
    | VUndefined | VNull => throwing (inl not_an_object)
    | _ => throwing (inl (TypeError "message.split is not a function"))
    end).

(** One turn of the loop of [getStarsByWalletAddress] (lines 202-208). *)
Definition stars_step (address : value) (self : Blockchain)
    (i : nat) (stars : list value) : exec (list value) :=
  block ← block_at self i;
  blockData ← await (Block_getBData block);
  owner ← property blockData "owner";
  if strict_eq owner address then mret (stars ++ [blockData]) else mret stars.

(** [getStarsByWalletAddress(address)] (lines 197-212). *)
Definition getStarsByWalletAddress (address : value)
    (self : Blockchain) : outcome (list value) :=
  settled (
    stars ← for_loop 1 (length (chain self) - 1) (stars_step address self) [];
    mret (resolve stars)).

(** [getChainHeight()] (lines 46-50). *)
Definition getChainHeight (self : Blockchain) : outcome Z :=
  Resolved (height self).

(** [requestMessageOwnershipVerification(address)] (lines 99-105). *)
Definition requestMessageOwnershipVerification (address : value) (now : Z) :
    outcome string :=
  Resolved (ToString address +:+ ":" +:+ slice_0_m3 (Z_toString now)
            +:+ ":starRegistry").

(** [let block = new BlockClass.Block(data); await this._addBlock(block)]:
    how both callers of [_addBlock] (lines 38-39 and 146-148) append. *)
Definition append (data : value) (now : Z) (self : Blockchain) :
    Blockchain * outcome loc :=
  let '(self', created) := new_Block data self in
  match created with
  | Return block => _addBlock block now self'
  | Throw e => (self', Rejected e)
  | Hang => (self', Pending)
  end.

(** Appends in sequence, each with its payload and its clock. *)
Fixpoint appends (inputs : list (value * Z)) (self : Blockchain) :
    Blockchain * list (outcome loc) :=
  match inputs with
  | [] => (self, [])
  | (data, now) :: rest =>
      let '(self1, result) := append data now self in
      let '(self2, results) := appends rest self1 in
      (self2, result :: results)
  end.

(** Lines 139-149 of [submitStar]: the signature is verified, and the star
    appended if it is good. *)
Definition verified_submit (address : value) (message : string)
    (signature star : value) (now_add : Z) (self : Blockchain) :
    Blockchain * outcome loc :=
  match bitcoinMessage_verify message address signature with
  | inl e => (self, Rejected e)
  | inr false => (self, Rejected (Error "Verification is invalid"))
  | inr true => append (VObj [("owner", address); ("star", star)]) now_add self
  end.

(** The block as [_addBlock] leaves it when [JSON.stringify] gave its
    text: the hash is the digest of the JSON text of the object it is
    assigned to. *)
Definition seal (o : Block) : Block :=
  set_prop "hash" (VStr (SHA256 (JSON_text o))) o.

End Blockchain.

(** ** The chain as the methods see it *)

(** Every reference in the chain array stands for a block object. *)
Definition well_formed (self : Blockchain) : Prop :=
  ∀ block : loc, block ∈ chain self → (block < length (objects self))%nat.

Definition well_formedb (self : Blockchain) : bool :=
  forallb (fun block : loc => (block <? length (objects self))%nat) (chain self).

(** The blocks of the chain, in the order of the array. *)
Definition blocks_of (self : Blockchain) : list Block :=
  (fun block : loc => default [] (objects self !! block)) <$> chain self.

(** [blocks[i]], the empty object out of range. *)
Definition block_nth (blocks : list Block) (i : nat) : Block := nth i blocks [].

(** A client that holds a reference to a block, as the promises of
    [submitStar] and of the lookups hand out, writes one of its
    properties. *)
Definition tamper (block : loc) (k : string) (v : value)
    (self : Blockchain) : Blockchain :=
  fst (assign block k v self).

(** *** The error log as section 4.3 of the specification words it *)

(** The indices recorded at [i]: once if the self-check of [blocks[i]]
    fails, and once more if its hash is not the previous hash of
    [blocks[i+1]]. *)
Definition errors_at (ok : nat -> bool) (blocks : list Block) (i : nat) : list nat :=
  (if ok i then [] else [i]) ++
  (if strict_eq (get_prop "hash" (block_nth blocks i))
                (get_prop "previousBlockHash" (block_nth blocks (i + 1)))
   then [] else [i]).

(** The log over [i] from 0 to [length - 2]. *)
Definition error_log (ok : nat -> bool) (blocks : list Block) : list nat :=
  concat (errors_at ok blocks <$> seq 0 (length blocks - 1)).

Definition report_of (log : list nat) : report :=
  match log with
  | [] => Valid
  | _ :: _ => Invalid (length log) log
  end.

(** *** What [_addBlock] does to the store *)

(** The hash of the last block of the chain, if there is one. *)
Definition previous_hash (self : Blockchain) : option value :=
  match last (chain self) with
  | Some previous => Some (get_prop "hash" (default [] (objects self !! previous)))
  | None => None
  end.

(** The block with its height, its time and its link assigned (lines
    63-69): every other property, [hash] and [body] among them, is as it
    was. *)
Definition stamp (n : nat) (now : Z) (previousHash : option value) (o : Block) : Block :=
  let o1 := set_prop "time" (VStr (slice_0_m3 (Z_toString now)))
              (set_prop "height" (VNum (Num (Z.of_nat n))) o) in
  match previousHash with
  | Some h => set_prop "previousBlockHash" h o1
  | None => o1
  end.

(** The store after lines 63-75, when line 71 gave the text to hash. *)
Definition appended `{Collaborators} (block : loc) (now : Z) (o : Block)
    (self : Blockchain) : Blockchain :=
  {| objects := <[block := seal (stamp (length (chain self)) now (previous_hash self) o)]>
                  (objects self);
     chain := chain self ++ [block];
     height := Z.of_nat (length (chain self)) |}.

(** The store after lines 63-69 when [JSON.stringify] throws on line 71:
    the block has its height, its time and its link, and is not pushed. *)
Definition refused (block : loc) (now : Z) (o : Block)
    (self : Blockchain) : Blockchain :=
  {| objects := <[block := stamp (length (chain self)) now (previous_hash self) o]>
                  (objects self);
     chain := chain self;
     height := height self |}.

(** Lines 77-82: how the promise settles on the validation. *)
Definition verdict (block : loc) (validation : outcome report) : outcome loc :=
  match validation with
  | Resolved Valid => Resolved block
  | Resolved (Invalid _ _) => Rejected (Error "Blockchain is not valid!")
  | Rejected e => Rejected e
  | Pending => Pending
  end.

Definition succeeded {A : Type} (p : outcome A) : Prop :=
  match p with
  | Resolved _ => True
  | _ => False
  end.

(** What holds of a store in which every block object was appended as soon
    as it was made. *)
Record linear (self : Blockchain) : Prop := {
  linear_chain : chain self = seq 0 (length (objects self));
  linear_height : height self = Z.of_nat (length (chain self)) - 1;
  linear_heights : ∀ (i : nat) (o : Block),
    objects self !! i = Some o → get_prop "height" o = VNum (Num (Z.of_nat i));
  linear_links : ∀ (i : nat) (o o' : Block),
    objects self !! i = Some o → objects self !! (i + 1)%nat = Some o' →
    get_prop "hash" o = get_prop "previousBlockHash" o'
}.

(** The instance before [initializeChain] has run (lines 26-27). *)
Definition empty_store : Blockchain :=
  {| objects := []; chain := []; height := -1 |}.

(** The new block of an append as line 71 serialises it: with its height,
    its time and its link. *)
Definition draft `{Collaborators} (data : value) (now : Z)
    (self : Blockchain) : Block :=
  stamp (length (chain self)) now (previous_hash self) (Block_new data).

(** The store after the append of a new block whose text line 71 had. *)
Definition extended `{Collaborators} (data : value) (now : Z)
    (self : Blockchain) : Blockchain :=
  {| objects := objects self ++ [seal (draft data now self)];
     chain := chain self ++ [length (objects self)];
     height := Z.of_nat (length (chain self)) |}.

(** The store after the append of a new block that [JSON.stringify]
    refused: the block object exists, and is not in the chain. *)
Definition orphaned `{Collaborators} (data : value) (now : Z)
    (self : Blockchain) : Blockchain :=
  {| objects := objects self ++ [draft data now self];
     chain := chain self;
     height := height self |}.

(** What every append keeps of the chain, those that are refused
    included: every reference of the chain stands for a block object and
    occurs once, the height is the length of the chain minus one, the
    block at index [i] has height [i], its hash is a string, and is the
    previous hash of the block after it. *)
Record chained (self : Blockchain) : Prop := {
  chained_refs : well_formed self;
  chained_once : NoDup (chain self);
  chained_height : height self = Z.of_nat (length (chain self)) - 1;
  chained_heights : ∀ (i : nat) (o : Block),
    blocks_of self !! i = Some o → get_prop "height" o = VNum (Num (Z.of_nat i));
  chained_links : ∀ (i : nat) (o o' : Block),
    blocks_of self !! i = Some o → blocks_of self !! (i + 1)%nat = Some o' →
    get_prop "hash" o = get_prop "previousBlockHash" o';
  chained_hash : ∀ (i : nat) (o : Block),
    blocks_of self !! i = Some o → ∃ h : string, get_prop "hash" o = VStr h
}.

(** *** submitStar *)

Definition ChallengeExpiredError : error :=
  Error "5 minute validation time has passed".
Definition SignatureInvalidError : error := Error "Verification is invalid".
Definition ChainIntegrityError : error := Error "Blockchain is not valid!".

(** The timestamp read from the message (line 128) and the clock in
    seconds (line 129). *)
Definition messageTime (message : string) : num :=
  parseInt (index (split ":" message) 1).
Definition currentTime (now : Z) : num :=
  parseInt (VStr (slice_0_m3 (Z_toString now))).

(** The test of line 135. *)
Definition expired (message : string) (now : Z) : bool :=
  num_geb (num_sub (currentTime now) (messageTime message)) (Num (60 * 5)).

(** *** getStarsByWalletAddress *)

(** [blockData.owner] where the data has properties. *)
Definition owner_of (blockData : value) : value :=
  match blockData with
  | VObj o => get_prop "owner" o
  | _ => VUndefined
  end.

(** A decoded body on which [.owner] does not throw. *)
Definition has_properties (blockData : value) : Prop :=
  blockData ≠ VUndefined ∧ blockData ≠ VNull.

(** The stars of an address among decoded bodies, in their order. *)
Definition stars_of (address : value) (decoded : list value) : list value :=
  List.filter (fun blockData => strict_eq (owner_of blockData) address) decoded.

(** *** Decimal strings *)

Definition is_decimal (c : ascii) : bool :=
  let n := nat_of_ascii c in ((48 <=? n) && (n <=? 57))%nat.

Fixpoint all_decimal (s : string) : bool :=
  match s with
  | "" => true
  | String c rest => is_decimal c && all_decimal rest
  end.

(** ** Collaborators to run the class with

    The theorems below hold for every digest, every signature check and
    every [Block] class.  To run the methods on inputs, the digest is
    SHA-256 itself and the rest is the simplest that fits what the
    specification says of it. *)

Module Digest.

Definition word (x : Z) : Z := Z.land x (2 ^ 32 - 1).

Definition rotr (n x : Z) : Z :=
  Z.lor (Z.shiftr x n) (word (Z.shiftl x (32 - n))).

Definition xor3 (x y z : Z) : Z := Z.lxor x (Z.lxor y z).

Definition Ch (x y z : Z) : Z :=
  Z.lxor (Z.land x y) (Z.land (Z.lxor x (2 ^ 32 - 1)) z).
Definition Maj (x y z : Z) : Z :=
  xor3 (Z.land x y) (Z.land x z) (Z.land y z).
Definition Sigma0 (x : Z) : Z := xor3 (rotr 2 x) (rotr 13 x) (rotr 22 x).
Definition Sigma1 (x : Z) : Z := xor3 (rotr 6 x) (rotr 11 x) (rotr 25 x).
Definition sigma0 (x : Z) : Z := xor3 (rotr 7 x) (rotr 18 x) (Z.shiftr x 3).
Definition sigma1 (x : Z) : Z := xor3 (rotr 17 x) (rotr 19 x) (Z.shiftr x 10).

(** The first primes, by trial division. *)
Fixpoint sieve (fuel : nat) (n : Z) (found : list Z) (wanted : nat) : list Z :=
  match fuel, wanted with
  | O, _ | _, O => rev found
  | S fuel', S wanted' =>
      if forallb (fun p => negb (n mod p =? 0)) found
      then sieve fuel' (n + 1) (n :: found) wanted'
      else sieve fuel' (n + 1) found wanted
  end.

Definition primes : list Z := Eval vm_compute in sieve 400 2 [] 64.

(** The integer cube root, by bisection. *)
Fixpoint cube_root (fuel : nat) (lo hi x : Z) : Z :=
  match fuel with
  | O => lo
  | S fuel' =>
      if hi - lo <=? 1 then lo
      else let mid := (lo + hi) / 2 in
           if mid * mid * mid <=? x then cube_root fuel' mid hi x
           else cube_root fuel' lo mid x
  end.

(** The first 32 bits of the fractional part of the square root and of the
    cube root of a prime: the initial state and the round constants. *)
Definition frac_sqrt (p : Z) : Z := word (Z.sqrt (p * 2 ^ 64)).
Definition frac_cbrt (p : Z) : Z := word (cube_root 64 0 (2 ^ 36) (p * 2 ^ 96)).

Definition H0 : list Z := Eval vm_compute in List.map frac_sqrt (firstn 8 primes).
Definition K : list Z := Eval vm_compute in List.map frac_cbrt primes.

Definition bytes_of (s : string) : list Z :=
  List.map (fun c => Z.of_nat (nat_of_ascii c)) (list_ascii_of_string s).

Definition big_endian (width : nat) (x : Z) : list Z :=
  List.map (fun i => Z.land (Z.shiftr x (8 * Z.of_nat i)) 255) (rev (seq 0 width)).

(** The message, the bit 1, zeros up to 56 modulo 64, and the length in
    bits on 8 bytes. *)
Definition padded (message : list Z) : list Z :=
  let n := Z.of_nat (length message) in
  let zeros := Z.to_nat ((55 - n) mod 64) in
  message ++ [128] ++ List.repeat 0 zeros ++ big_endian 8 (8 * n).

Fixpoint words_of (fuel : nat) (bytes : list Z) : list Z :=
  match fuel, bytes with
  | S fuel', a :: b :: c :: d :: rest =>
      (((a * 256 + b) * 256 + c) * 256 + d) :: words_of fuel' rest
  | _, _ => []
  end.

(** The message schedule, latest word first. *)
Fixpoint schedule (n : nat) (w : list Z) : list Z :=
  match n with
  | O => w
  | S n' =>
      schedule n'
        (word (sigma1 (nth 1 w 0) + nth 6 w 0 + sigma0 (nth 14 w 0) + nth 15 w 0)
         :: w)
  end.

Definition round (state : list Z) (kw : Z * Z) : list Z :=
  match state with
  | [a; b; c; d; e; f; g; h] =>
      let t1 := h + Sigma1 e + Ch e f g + fst kw + snd kw in
      let t2 := Sigma0 a + Maj a b c in
      [word (t1 + t2); a; b; c; word (d + t1); e; f; g]
  | _ => state
  end.

Definition compress (state : list Z) (block : list Z) : list Z :=
  let w := rev (schedule 48 (rev block)) in
  let final := fold_left round (combine K w) state in
  List.map (fun p => word (fst p + snd p)) (combine state final).

Fixpoint blocks (fuel : nat) (state words : list Z) : list Z :=
  match fuel, words with
  | _, [] => state
  | O, _ => state
  | S fuel', _ => blocks fuel' (compress state (firstn 16 words)) (skipn 16 words)
  end.

Definition hex_word (x : Z) : string :=
  string_of_list_ascii
    (List.map (fun i => hex_char (Z.to_nat (Z.land (Z.shiftr x (4 * Z.of_nat i)) 15)))
              (rev (seq 0 8))).

(** SHA-256 of a string of bytes, in hexadecimal. *)
Definition sha256 (s : string) : string :=
  let message := padded (bytes_of s) in
  let words := words_of (length message) message in
  String.concat "" (List.map hex_word (blocks (length words) H0 words)).

End Digest.

(** [delete o.k]. *)
Definition remove_prop (k : string) (o : object) : object :=
  List.filter (fun kv : string * value => negb (String.eqb k (fst kv))) o.

(** Modelled from the spec: block.js, which declares the [Block] class, is
    not among the sources.  A block is constructible from a body payload;
    its previous hash is absent on the first block and its hash does not
    exist before the block is appended. *)
Definition spec_Block_new (data : value) : Block := [("body", data)].

(** Modelled from the spec: the self-check of block.js recomputes the hash
    of the block from its current fields, the hash field apart, and
    reports whether it still matches the stored hash. *)
Definition spec_Block_validate (o : Block) : outcome bool :=
  match JSON_stringify_object (remove_prop "hash" o) with
  | inr text => Resolved (strict_eq (get_prop "hash" o) (VStr (Digest.sha256 text)))
  | inl e => Rejected e
  end.

(** Modelled from the spec: the decoding of block.js returns the logical
    payload of the body, an object, and fails on a body that is none. *)
Definition spec_Block_getBData (o : Block) : outcome value :=
  match get_prop "body" o with
  | VObj data => Resolved (VObj data)
  | _ => Rejected (Error "The body does not decode")
  end.

(** Modelled from the spec: bitcoinjs-message decides whether the signature
    was produced over exactly the message by the key of the address.  In
    its place, the signature of a message by an address is the text
    [address signed message]. *)
Definition stand_in_verify (message : string) (address signature : value) :
    error + bool :=
  inr (strict_eq signature (VStr (ToString address +:+ " signed " +:+ message))).

Definition reference : Collaborators := {|
  SHA256 := Digest.sha256;
  bitcoinMessage_verify := stand_in_verify;
  Block_new := spec_Block_new;
  Block_validate := spec_Block_validate;
  Block_getBData := spec_Block_getBData
|}.

(** What holds, with the collaborators above, of a store that appends
    have built: the chain is as every append keeps it, and every block of
    the chain passes its self-check. *)
Record sound (self : Blockchain) : Prop := {
  sound_chained : chained self;
  sound_check : ∀ (i : nat) (o : Block),
    blocks_of self !! i = Some o → spec_Block_validate o = Resolved true
}.

(** *** A run of the registry *)

Definition polaris : value := VObj [("star", VStr "Polaris")].
Definition vega : value := VObj [("star", VStr "Vega")].
Definition star_of (owner : string) (star : value) : value :=
  VObj [("owner", VStr owner); ("star", star)].

(** A store made at 1700000000.123, then two stars appended.  The stores
    of this run are kept evaluated. *)
Definition genesis_store : Blockchain :=
  Eval vm_compute in @Blockchain_new reference 1700000000123.

Definition two_stars : list (value * Z) :=
  [(star_of "addr1" polaris, 1700000100456);
   (star_of "addr2" vega, 1700000200789)].

Definition star_store : Blockchain :=
  Eval vm_compute in fst (@appends reference two_stars genesis_store).

(** The same store after a client overwrote the hash of the first block. *)
Definition tampered_store : Blockchain :=
  Eval vm_compute in tamper 0 "hash" (VStr "00") star_store.

(** A block object that is made and not yet appended. *)
Definition pending_block (self : Blockchain) : Blockchain :=
  fst (@new_Block reference (star_of "addr1" vega) self).

(** The challenge of addr1 issued at 1700000000, and its signature. *)
Definition challenge : string := "addr1:1700000000:starRegistry".
Definition good_signature : value :=
  VStr ("addr1 signed " +:+ challenge).
Definition bad_signature : value := VStr "forged".

(** The tampered store, a new block made, and that block appended. *)
Definition failed_append : Blockchain * outcome loc :=
  Eval vm_compute in
    @_addBlock reference 3 1700000300000 (pending_block tampered_store).

(** A block made on a fresh store, and the same block after a [hash]
    property was written on it; each appended at the same time. *)
Definition fresh_block_store : Blockchain :=
  Eval vm_compute in pending_block genesis_store.
Definition stale_block_store : Blockchain :=
  Eval vm_compute in tamper 1 "hash" (VStr "00") fresh_block_store.
Definition fresh_append : Blockchain * outcome loc :=
  Eval vm_compute in @_addBlock reference 1 1700000100456 fresh_block_store.
Definition stale_append : Blockchain * outcome loc :=
  Eval vm_compute in @_addBlock reference 1 1700000100456 stale_block_store.
Definition stale_block : Block :=
  set_prop "hash" (VStr "00") (spec_Block_new (star_of "addr1" vega)).

(** The block at index 1 appended a second time. *)
Definition twice_appended : Blockchain * outcome loc :=
  Eval vm_compute in @_addBlock reference 1 1700000300000 star_store.

(** A star that [JSON.stringify] refuses, the block of it made on the
    fresh store, and that block appended. *)
Definition big_star : value := VObj [("magnitude", VBigInt 2)].
Definition big_block_store : Blockchain :=
  Eval vm_compute in
    fst (@new_Block reference (star_of "addr1" big_star) genesis_store).
Definition big_append : Blockchain * outcome loc :=
  Eval vm_compute in @_addBlock reference 1 1700000100456 big_block_store.

(** That star submitted by addr1 with its signed challenge, on the fresh
    store. *)
Definition big_submit : Blockchain * outcome loc :=
  Eval vm_compute in
    @submitStar reference (VStr "addr1") (VStr challenge) good_signature
      big_star 1700000299999 1700000299999 genesis_store.

(** The store after a client overwrote the body of the block at index 1
    with something that does not decode, and after one gave the first block
    the body of a star. *)
Definition garbled_store : Blockchain :=
  Eval vm_compute in tamper 1 "body" (VStr "garbage") star_store.
Definition claimed_genesis_store : Blockchain :=
  Eval vm_compute in tamper 0 "body" (star_of "addr1" vega) star_store.

(** ** The lookups and the calls of a client *)

(** [new Promise((resolve, reject) => body)] with a plain executor, as the
    lookups have it: an exception thrown by the body rejects the promise. *)
Definition settled_sync {A} (body : exec (settle A)) : outcome A :=
  match body with
  | Return (resolve a) => Resolved a
  | Return (reject e) => Rejected e
  | Throw e => Rejected e
  | Hang => Pending
  end.

(** [self.chain.filter(p => test(p))], where the test reads properties of
    the element: the references kept, in the order of the array. *)
Fixpoint chain_filter (self : Blockchain) (test : Block -> bool)
    (refs : list loc) : exec (list loc) :=
  match refs with
  | [] => Return []
  | p :: rest =>
      match objects self !! p with
      | Some o =>
          kept ← chain_filter self test rest;
          mret (if test o then p :: kept else kept)
      | None => Throw not_an_object
      end
  end.

(** [getBlockByHash(hash)] (lines 162-172): [None] is the [null] it
    resolves with when [filter(...)[0]] is [undefined]. *)
Definition getBlockByHash (hash : value) (self : Blockchain) :
    outcome (option loc) :=
  settled_sync (
    found ← chain_filter self
              (fun p => strict_eq (get_prop "hash" p) hash) (chain self);
    mret (resolve (head found))).

(** [getBlockByHeight(height)] (lines 179-189). *)
Definition getBlockByHeight (h : value) (self : Blockchain) :
    outcome (option loc) :=
  settled_sync (
    found ← chain_filter self
              (fun p => strict_eq (get_prop "height" p) h) (chain self);
    mret (resolve (head found))).

(** The string has a colon in it. *)
Fixpoint has_colon (s : string) : bool :=
  match s with
  | "" => false
  | String c rest => Ascii.eqb c ":" || has_colon rest
  end.

(** The pairs 0, 0, 1, 1, ... up to [n - 1], [n - 1]: every index that
    [validateChain] may log, as often as it may log it. *)
Definition twice_each (n : nat) : list nat :=
  concat ((fun i : nat => [i; i]) <$> seq 0 n).

(** A store in which no block object was left aside: every block object
    is in the chain, in the order it was made, at the height of its index,
    linked to the block before it, and its hash is a string. *)
Record registry (self : Blockchain) : Prop := {
  registry_linear : linear self;
  registry_hash : ∀ (i : nat) (o : Block),
    objects self !! i = Some o → ∃ h : string, get_prop "hash" o = VStr h
}.

(** The calls that change the store. *)
Inductive call : Type :=
  | SubmitStar (address message signature star : value) (now now_add : Z)
  | InitializeChain (now : Z).

Section Calls.
Context `{Collaborators}.

(** The store a call leaves, however its promise settles. *)
Definition call_run (c : call) (self : Blockchain) : Blockchain :=
  match c with
  | SubmitStar address message signature star now now_add =>
      fst (submitStar address message signature star now now_add self)
  | InitializeChain now => fst (initializeChain now self)
  end.

(** Calls one after the other. *)
Fixpoint calls_run (calls : list call) (self : Blockchain) : Blockchain :=
  match calls with
  | [] => self
  | c :: rest => calls_run rest (call_run c self)
  end.

End Calls.

(** * Properties *)

(** ** Strings and numbers *)

Lemma string_app_cons (c : ascii) (s t : string) :
  String c s +:+ t = String c (s +:+ t).
Proof. reflexivity. Qed.

Lemma string_app_nil (t : string) : "" +:+ t = t.
Proof. reflexivity. Qed.

Lemma string_app_assoc (s t u : string) : (s +:+ t) +:+ u = s +:+ (t +:+ u).
Proof.
  induction s as [|c s IH]; rewrite ?string_app_cons, ?string_app_nil;
    [reflexivity|now f_equal].
Qed.

Lemma digits_fuel_acc (fuel : nat) (n : Z) (acc : string) :
  digits_fuel fuel n acc = digits_fuel fuel n "" +:+ acc.
Proof.
  revert n acc. induction fuel as [|fuel IH]; intros n acc; simpl; [reflexivity|].
  destruct (n <? 10); [reflexivity|].
  rewrite IH, (IH _ (String _ "")).
  now rewrite string_app_assoc.
Qed.

Lemma digits_fuel_enough (fuel fuel' : nat) (n : Z) (acc : string) :
  0 <= n < 2 ^ (Z.of_nat fuel + 1) → n < 2 ^ (Z.of_nat fuel' + 1) →
  digits_fuel (S fuel) n acc = digits_fuel (S fuel') n acc.
Proof.
  revert fuel' n acc. induction fuel as [|fuel IH]; intros fuel' n acc Hn Hn'.
  - simpl in Hn. change (2 ^ 1) with 2 in Hn.
    simpl. replace (n <? 10) with true by (symmetry; apply Z.ltb_lt; lia).
    reflexivity.
  - cbn [digits_fuel]. destruct (n <? 10) eqn:E; [reflexivity|].
    apply Z.ltb_ge in E.
    destruct fuel' as [|fuel'].
    { change (2 ^ (Z.of_nat 0 + 1)) with 2 in Hn'. lia. }
    apply IH.
    + split; [apply Z.div_pos; lia|].
      apply Z.div_lt_upper_bound; [lia|].
      replace (Z.of_nat (S fuel) + 1) with (Z.succ (Z.of_nat fuel + 1)) in Hn by lia.
      rewrite Z.pow_succ_r in Hn by lia. lia.
    + apply Z.div_lt_upper_bound; [lia|].
      replace (Z.of_nat (S fuel') + 1) with (Z.succ (Z.of_nat fuel' + 1)) in Hn' by lia.
      rewrite Z.pow_succ_r in Hn' by lia. lia.
Qed.

Lemma log2_fuel (n : Z) : 0 <= n → n < 2 ^ (Z.of_nat (Z.to_nat (Z.log2 n)) + 1).
Proof.
  intros Hn. rewrite Z2Nat.id by apply Z.log2_nonneg.
  destruct (Z.eq_dec n 0) as [->|Hne]; [reflexivity|].
  replace (Z.log2 n + 1) with (Z.succ (Z.log2 n)) by lia.
  apply Z.log2_spec. lia.
Qed.

Lemma digits_small (n : Z) :
  0 <= n < 10 → digits n = String (digit_char n) "".
Proof.
  intros Hn. unfold digits. simpl.
  replace (n <? 10) with true by (symmetry; apply Z.ltb_lt; lia).
  now rewrite Z.mod_small by lia.
Qed.

Lemma digits_step (n : Z) :
  10 <= n → digits n = digits (n / 10) +:+ String (digit_char (n mod 10)) "".
Proof.
  intros Hn. unfold digits at 1. cbn [digits_fuel].
  replace (n <? 10) with false by (symmetry; apply Z.ltb_ge; lia).
  pose proof (log2_fuel n ltac:(lia)) as Hfuel.
  destruct (Z.to_nat (Z.log2 n)) as [|fuel] eqn:E.
  { change (2 ^ (Z.of_nat 0 + 1)) with 2 in Hfuel. lia. }
  rewrite digits_fuel_acc. f_equal.
  unfold digits. apply digits_fuel_enough.
  - split; [apply Z.div_pos; lia|].
    apply Z.div_lt_upper_bound; [lia|].
    replace (Z.of_nat (S fuel) + 1) with (Z.succ (Z.of_nat fuel + 1)) in Hfuel by lia.
    rewrite Z.pow_succ_r in Hfuel by lia. lia.
  - apply log2_fuel. apply Z.div_pos; lia.
Qed.

Lemma string_take_app (s t : string) :
  string_take (String.length s) (s +:+ t) = s.
Proof.
  induction s as [|c s IH]; rewrite ?string_app_cons, ?string_app_nil; simpl;
    [now destruct t|now rewrite IH].
Qed.

Lemma string_length_app (s t : string) :
  String.length (s +:+ t) = (String.length s + String.length t)%nat.
Proof.
  induction s as [|c s IH]; rewrite ?string_app_cons, ?string_app_nil; simpl;
    [reflexivity|now rewrite IH].
Qed.

(** Dropping the last three characters of the decimal string of the clock
    in milliseconds leaves the decimal string of the clock in seconds. *)
Lemma slice_toString_seconds (now : Z) :
  1000 <= now → slice_0_m3 (Z_toString now) = Z_toString (now / 1000).
Proof.
  intros Hnow. unfold Z_toString.
  replace (now <? 0) with false by (symmetry; apply Z.ltb_ge; lia).
  replace (now / 1000 <? 0) with false
    by (symmetry; apply Z.ltb_ge; apply Z.div_pos; lia).
  assert (H10 : 10 <= now / 10) by (Z.div_mod_to_equations; lia).
  assert (H100 : 10 <= now / 10 / 10) by (Z.div_mod_to_equations; lia).
  rewrite (digits_step now), (digits_step (now / 10)), (digits_step (now / 10 / 10))
    by lia.
  replace (now / 10 / 10 / 10) with (now / 1000)
    by (rewrite !Z.div_div by lia; reflexivity).
  rewrite !string_app_assoc, !string_app_cons, !string_app_nil.
  unfold slice_0_m3. rewrite string_length_app. simpl.
  replace (String.length (digits (now / 1000)) + 3 - 3)%nat
    with (String.length (digits (now / 1000))) by lia.
  apply string_take_app.
Qed.

Lemma digit_cases (d : Z) :
  0 <= d < 10 →
  d = 0 ∨ d = 1 ∨ d = 2 ∨ d = 3 ∨ d = 4 ∨ d = 5 ∨ d = 6 ∨ d = 7 ∨ d = 8 ∨ d = 9.
Proof. lia. Qed.

Lemma digit_char_decimal (d : Z) :
  0 <= d < 10 →
  is_decimal (digit_char d) = true ∧ digit_value 10 (digit_char d) = Some d.
Proof.
  intros Hd. destruct (digit_cases d Hd) as [->|[->|[->|[->|[->|[->|[->|[->|[->| ->]]]]]]]]];
    split; reflexivity.
Qed.

Lemma string_app_nil_r (s : string) : s +:+ "" = s.
Proof.
  induction s as [|c s IH]; rewrite ?string_app_cons, ?string_app_nil;
    [reflexivity|now f_equal].
Qed.

Lemma all_decimal_app (s t : string) :
  all_decimal (s +:+ t) = all_decimal s && all_decimal t.
Proof.
  induction s as [|c s IH]; rewrite ?string_app_cons, ?string_app_nil; simpl;
    [reflexivity|]. now rewrite IH, andb_assoc.
Qed.

Lemma all_decimal_cons (c : ascii) (rest : string) :
  all_decimal (String c rest) = is_decimal c && all_decimal rest.
Proof. reflexivity. Qed.

Lemma read_digits_cons (radix : Z) (c : ascii) (rest : string) (acc : option Z) :
  read_digits radix (String c rest) acc
  = match digit_value radix c with
    | Some d => read_digits radix rest (Some (radix * default 0 acc + d))
    | None => acc
    end.
Proof. reflexivity. Qed.

(** The decimal string of [n] is made of digits, and reading them back left
    to right gives [n]. *)
Lemma read_digits_digits (n : Z) :
  0 <= n →
  all_decimal (digits n) = true
  ∧ digits n ≠ ""
  ∧ ∀ (t : string) (acc : option Z),
      ∃ k : Z, 0 < k ∧
        read_digits 10 (digits n +:+ t) acc
        = read_digits 10 t (Some (k * default 0 acc + n)).
Proof.
  pattern n. apply (well_founded_induction (Z.lt_wf 0)). clear n.
  intros n IH Hn.
  destruct (Z_lt_ge_dec n 10) as [Hsmall|Hbig].
  - rewrite digits_small by lia.
    destruct (digit_char_decimal n ltac:(lia)) as [Hdec Hval].
    repeat split.
    + now rewrite all_decimal_cons, Hdec.
    + discriminate.
    + intros t acc. exists 10. split; [lia|].
      now rewrite string_app_cons, string_app_nil, read_digits_cons, Hval.
  - rewrite digits_step by lia.
    assert (Hdiv : 0 <= n / 10 < n) by (Z.div_mod_to_equations; lia).
    destruct (IH (n / 10) Hdiv ltac:(lia)) as (Hall & Hne & Hread).
    destruct (digit_char_decimal (n mod 10) ltac:(Z.div_mod_to_equations; lia))
      as [Hdec Hval].
    repeat split.
    + now rewrite all_decimal_app, Hall, all_decimal_cons, Hdec.
    + destruct (digits (n / 10)); [congruence|discriminate].
    + intros t acc. destruct (Hread (String (digit_char (n mod 10)) t) acc)
        as (k & Hk & Hk').
      exists (10 * k). split; [lia|].
      rewrite string_app_assoc, string_app_cons, string_app_nil, Hk'.
      rewrite read_digits_cons, Hval. do 2 f_equal.
      simpl default. pose proof (Z_div_mod_eq_full n 10) as E.
      remember (n / 10) as q. remember (n mod 10) as r. rewrite E. ring.
Qed.

Lemma decimal_cases (c : ascii) :
  is_decimal c = true →
  In c ["0"; "1"; "2"; "3"; "4"; "5"; "6"; "7"; "8"; "9"]%char.
Proof.
  destruct c as [[] [] [] [] [] [] [] []]; intros Hc;
    try discriminate Hc; simpl; tauto.
Qed.

Lemma parseInt_decimal (s : string) :
  s ≠ "" → all_decimal s = true →
  parseInt_string s
  = match read_digits 10 s None with
    | Some m => Num m
    | None => NaN
    end.
Proof.
  intros Hne Hall. destruct s as [|c rest]; [congruence|].
  simpl in Hall. apply andb_prop in Hall as [Hc Hrest].
  assert (Hmul : ∀ r : option Z,
            match r with Some m => Num (1 * m) | None => NaN end
            = match r with Some m => Num m | None => NaN end).
  { intros [m|]; [|reflexivity]. now destruct m. }
  rewrite <- Hmul.
  apply decimal_cases in Hc. simpl in Hc.
  destruct Hc as [<-|[<-|[<-|[<-|[<-|[<-|[<-|[<-|[<-|[<-|[]]]]]]]]]]];
    try reflexivity.
  destruct rest as [|c2 rest2]; [reflexivity|].
  simpl in Hrest. apply andb_prop in Hrest as [Hc2 _].
  apply decimal_cases in Hc2. simpl in Hc2.
  destruct Hc2 as [<-|[<-|[<-|[<-|[<-|[<-|[<-|[<-|[<-|[<-|[]]]]]]]]]]];
    reflexivity.
Qed.

(** [parseInt] reads the decimal string of a non-negative integer back. *)
Lemma parseInt_toString (n : Z) : 0 <= n → parseInt_string (Z_toString n) = Num n.
Proof.
  intros Hn. unfold Z_toString.
  replace (n <? 0) with false by (symmetry; apply Z.ltb_ge; lia).
  destruct (read_digits_digits n Hn) as (Hall & Hne & Hread).
  rewrite parseInt_decimal by assumption.
  destruct (Hread "" None) as (k & _ & Hk).
  rewrite string_app_nil_r in Hk. rewrite Hk. simpl. f_equal. lia.
Qed.

(** The clock in seconds, as lines 65 and 129 compute it. *)
Lemma currentTime_seconds (now : Z) :
  1000 <= now →
  parseInt (VStr (slice_0_m3 (Z_toString now))) = Num (now / 1000).
Proof.
  intros Hnow. unfold parseInt, ToString.
  rewrite slice_toString_seconds by assumption.
  apply parseInt_toString. apply Z.div_pos; lia.
Qed.

(** Below 1000 the clock has three digits at most, and none is left. *)
Lemma slice_toString_early (now : Z) :
  0 <= now < 1000 → slice_0_m3 (Z_toString now) = "".
Proof.
  intros Hnow.
  assert (Hall : forallb (fun k : nat =>
                            String.eqb (slice_0_m3 (Z_toString (Z.of_nat k))) "")
                         (seq 0 1000) = true)
    by (vm_compute; reflexivity).
  rewrite forallb_forall in Hall.
  specialize (Hall (Z.to_nat now)).
  rewrite Z2Nat.id in Hall by lia.
  apply String.eqb_eq, Hall, in_seq. lia.
Qed.

(** ** Objects *)

Lemma get_set_prop_eq (k : string) (v : value) (o : object) :
  get_prop k (set_prop k v o) = v.
Proof.
  induction o as [|[k' v'] o IH]; simpl.
  - now rewrite String.eqb_refl.
  - destruct (String.eqb k k') eqn:E; simpl; rewrite ?String.eqb_refl, ?E; auto.
Qed.

Lemma get_set_prop_ne (k k' : string) (v : value) (o : object) :
  k ≠ k' → get_prop k (set_prop k' v o) = get_prop k o.
Proof.
  intros Hne. apply String.eqb_neq in Hne.
  induction o as [|[k0 v0] o IH]; simpl.
  - now rewrite Hne.
  - destruct (String.eqb k' k0) eqn:E; simpl.
    + apply String.eqb_eq in E. subst k0. now rewrite Hne.
    + now rewrite IH.
Qed.

(** ** validateChain *)

Lemma block_at_well_formed (self : Blockchain) (i : nat) :
  well_formed self → (i < length (chain self))%nat →
  block_at self i = Return (block_nth (blocks_of self) i).
Proof.
  intros Hwf Hi. unfold block_at, block_nth, blocks_of.
  destruct (chain self !! i) as [block|] eqn:Hblock.
  - assert (Hin : block ∈ chain self) by (eapply list_elem_of_lookup_2; eauto).
    apply Hwf, lookup_lt_is_Some_2 in Hin. destruct Hin as [o Ho].
    erewrite nth_lookup_Some
      by (rewrite list_lookup_fmap, Hblock; simpl; reflexivity).
    now rewrite Ho.
  - apply lookup_ge_None_1 in Hblock. lia.
Qed.

Lemma length_blocks_of (self : Blockchain) :
  length (blocks_of self) = length (chain self).
Proof. unfold blocks_of. now rewrite length_fmap. Qed.

Lemma validateChain_step_spec (validate : Block -> outcome bool)
    (ok : nat -> bool) (self : Blockchain) (i : nat) (errorLog : list nat) :
  well_formed self → (i + 1 < length (chain self))%nat →
  validate (block_nth (blocks_of self) i) = Resolved (ok i) →
  validateChain_step validate self i errorLog
  = Return (errorLog ++ errors_at ok (blocks_of self) i).
Proof.
  intros Hwf Hi Hok. unfold validateChain_step.
  rewrite !block_at_well_formed by (auto; lia).
  simpl. rewrite Hok. simpl.
  unfold errors_at.
  destruct (ok i); destruct (strict_eq _ _); simpl;
    rewrite ?app_nil_r, <- ?app_assoc; reflexivity.
Qed.

Lemma validateChain_loop_spec (validate : Block -> outcome bool)
    (ok : nat -> bool) (self : Blockchain) (count i : nat) (errorLog : list nat) :
  well_formed self → (i + count <= length (chain self) - 1)%nat →
  (∀ j, (i <= j < i + count)%nat →
        validate (block_nth (blocks_of self) j) = Resolved (ok j)) →
  for_loop i count (validateChain_step validate self) errorLog
  = Return (errorLog ++ concat (errors_at ok (blocks_of self) <$> seq i count)).
Proof.
  intros Hwf. revert i errorLog.
  induction count as [|count IH]; intros i errorLog Hi Hok; simpl.
  - now rewrite app_nil_r.
  - rewrite (validateChain_step_spec validate ok);
      [|assumption|lia|apply Hok; lia].
    simpl. rewrite IH; [|lia|intros; apply Hok; lia].
    now rewrite <- app_assoc.
Qed.

Lemma report_of_log (log : list nat) :
  (if (0 <? length log)%nat
   then Return (resolve (Invalid (length log) log))
   else Return (resolve Valid))
  = Return (resolve (report_of log)).
Proof. now destruct log. Qed.

(** C2.  [validateChain] walks [i] from 0 to [length - 2]: it records [i]
    once when the self-check of [block[i]] fails and once more when
    [block[i].hash] is not [block[i+1].previousBlockHash], and resolves
    with Valid exactly when the log is empty and otherwise with Invalid,
    the whole log (repeated indices kept) and its length.  The self-check
    of the last block is not consulted: whatever it is, the result is the
    same. *)
Theorem validateChain_log (validate : Block -> outcome bool)
    (ok : nat -> bool) (self : Blockchain) :
  well_formed self →
  (∀ i, (i + 1 < length (chain self))%nat →
        validate (block_nth (blocks_of self) i) = Resolved (ok i)) →
  validateChain_with validate self
  = Resolved (report_of (error_log ok (blocks_of self)))
  ∧ (report_of (error_log ok (blocks_of self)) = Valid
     ↔ error_log ok (blocks_of self) = [])
  ∧ ∀ validate' : Block -> outcome bool,
      (∀ i, (i + 1 < length (chain self))%nat →
            validate' (block_nth (blocks_of self) i)
            = validate (block_nth (blocks_of self) i)) →
      validateChain_with validate' self = validateChain_with validate self.
Proof.
  intros Hwf Hok.
  assert (Hrun : ∀ v : Block -> outcome bool,
    (∀ i, (i + 1 < length (chain self))%nat →
          v (block_nth (blocks_of self) i) = Resolved (ok i)) →
    validateChain_with v self
    = Resolved (report_of (error_log ok (blocks_of self)))).
  { intros v Hv. unfold validateChain_with.
    rewrite (validateChain_loop_spec v ok);
      [|assumption|lia|intros; apply Hv; lia].
    simpl. unfold error_log. rewrite length_blocks_of.
    change (exec_bind _ _ ?f ?m) with (mbind f m). simpl.
    now rewrite report_of_log. }
  split; [now apply Hrun|]. split.
  - destruct (error_log ok (blocks_of self)); simpl; split; congruence.
  - intros validate' Hsame. rewrite (Hrun validate), (Hrun validate'); auto.
    intros i Hi. rewrite Hsame by auto. now apply Hok.
Qed.

(** ** _addBlock *)

Lemma M_bind_Return {A B : Type} (m : M A) (f : A -> M B)
    (self self' : Blockchain) (a : A) :
  m self = (self', Return a) → (m ≫= f) self = f a self'.
Proof. intros Hm. unfold mbind, M_bind. now rewrite Hm. Qed.

Lemma assign_run (block : loc) (k : string) (v : value) (o : Block)
    (self : Blockchain) :
  objects self !! block = Some o →
  assign block k v self
  = ({| objects := <[block := set_prop k v o]> (objects self);
        chain := chain self;
        height := height self |}, Return tt).
Proof. intros Ho. unfold assign. now rewrite Ho. Qed.

Lemma last_lookup_length {A : Type} (l : list A) :
  l !! (length l - 1)%nat = last l.
Proof. rewrite last_lookup. f_equal. lia. Qed.

Section AddBlock.
Context `{Collaborators}.

(** Lines 67-69: the link to the last block of the chain, read after
    [height] and [time] of the block have been assigned. *)
Lemma link_run (block : loc) (now : Z) (o : Block) (self : Blockchain) :
  well_formed self →
  objects self !! block = Some o →
  let n := length (chain self) in
  let o1 := set_prop "time" (VStr (slice_0_m3 (Z_toString now)))
              (set_prop "height" (VNum (Num (Z.of_nat n))) o) in
  (if (0 <? n)%nat
   then previous ← chain_at (n - 1);
        previousHash ← read previous "hash";
        assign block "previousBlockHash" previousHash
   else mret tt)
    {| objects := <[block := o1]> (objects self);
       chain := chain self;
       height := height self |}
  = ({| objects := <[block := stamp n now (previous_hash self) o]> (objects self);
        chain := chain self;
        height := height self |}, Return tt).
Proof.
  intros Hwf Ho n o1.
  assert (Hlt : (block < length (objects self))%nat)
    by (eapply lookup_lt_Some; eauto).
  unfold stamp, previous_hash. fold o1.
  destruct (last (chain self)) as [previous|] eqn:Hlast.
  - assert (Hn : (0 < n)%nat).
    { subst n. destruct (chain self); simpl in *; [discriminate|lia]. }
    apply Nat.ltb_lt in Hn as Hn'. rewrite Hn'.
    assert (Hprev : (previous < length (objects self))%nat).
    { apply Hwf. apply last_Some_elem_of. exact Hlast. }
    destruct (lookup_lt_is_Some_2 _ _ Hprev) as [op Hop].
    erewrite M_bind_Return; cycle 1.
    { unfold chain_at. simpl. subst n. now rewrite last_lookup_length, Hlast. }
    assert (Hread : read previous "hash"
                      {| objects := <[block := o1]> (objects self);
                         chain := chain self; height := height self |}
                    = ({| objects := <[block := o1]> (objects self);
                          chain := chain self; height := height self |},
                       Return (get_prop "hash" op))).
    { unfold read, deref, mbind, M_bind. simpl.
      destruct (decide (block = previous)) as [->|Hne].
      - rewrite list_lookup_insert_eq by auto.
        unfold mret, M_ret. subst o1.
        rewrite !get_set_prop_ne by discriminate.
        congruence.
      - rewrite list_lookup_insert_ne by auto. now rewrite Hop. }
    erewrite M_bind_Return by exact Hread.
    erewrite assign_run by (simpl; apply list_lookup_insert_eq; auto).
    simpl. rewrite list_insert_insert_eq. now rewrite Hop.
  - apply last_None in Hlast. subst n. rewrite Hlast. reflexivity.
Qed.

Lemma JSON_text_eq (o : Block) (text : string) :
  JSON_stringify_object o = inr text → JSON_text o = text.
Proof. intros Htext. unfold JSON_text. now rewrite Htext. Qed.

(** [_addBlock] on a block that is an object: the append when line 71
    gives the text to hash, and the rejection with what [JSON.stringify]
    threw otherwise. *)
Lemma _addBlock_cases (block : loc) (now : Z) (o : Block) (self : Blockchain) :
  well_formed self →
  objects self !! block = Some o →
  _addBlock block now self
  = match JSON_stringify_object
            (stamp (length (chain self)) now (previous_hash self) o) with
    | inr _ =>
        (appended block now o self,
         verdict block (validateChain (appended block now o self)))
    | inl e => (refused block now o self, Rejected e)
    end.
Proof.
  intros Hwf Ho.
  assert (Hlt : (block < length (objects self))%nat)
    by (eapply lookup_lt_Some; eauto).
  unfold _addBlock, new_Promise, try_catch.
  erewrite M_bind_Return by reflexivity.
  erewrite M_bind_Return by (apply assign_run; eauto).
  erewrite M_bind_Return
    by (apply assign_run; simpl; apply list_lookup_insert_eq; auto).
  simpl. rewrite list_insert_insert_eq.
  erewrite M_bind_Return by (apply link_run; auto).
  erewrite M_bind_Return
    by (unfold deref; simpl; rewrite list_lookup_insert_eq by auto; reflexivity).
  destruct (JSON_stringify_object
              (stamp (length (chain self)) now (previous_hash self) o))
    as [e|text] eqn:Htext.
  - unfold mbind at 1, M_bind at 1, throwing. reflexivity.
  - erewrite M_bind_Return by reflexivity.
    erewrite M_bind_Return
      by (apply assign_run; simpl; apply list_lookup_insert_eq; auto).
    simpl. rewrite list_insert_insert_eq.
    erewrite M_bind_Return by reflexivity.
    erewrite M_bind_Return by reflexivity.
    erewrite M_bind_Return by reflexivity.
    simpl. rewrite length_app. simpl.
    replace (Z.of_nat (length (chain self) + 1) - 1)
      with (Z.of_nat (length (chain self))) by lia.
    rewrite <- (JSON_text_eq _ _ Htext).
    fold (seal (stamp (length (chain self)) now (previous_hash self) o)).
    fold (appended block now o self).
    unfold mbind, M_bind, await_read.
    destruct (validateChain (appended block now o self)) as [[|]| |]; reflexivity.
Qed.

Lemma _addBlock_run (block : loc) (now : Z) (o : Block) (text : string)
    (self : Blockchain) :
  well_formed self →
  objects self !! block = Some o →
  JSON_stringify_object (stamp (length (chain self)) now (previous_hash self) o)
  = inr text →
  _addBlock block now self
  = (appended block now o self,
     verdict block (validateChain (appended block now o self))).
Proof.
  intros Hwf Ho Htext. now rewrite (_addBlock_cases block now o), Htext.
Qed.

Lemma _addBlock_refused (block : loc) (now : Z) (o : Block) (e : error)
    (self : Blockchain) :
  well_formed self →
  objects self !! block = Some o →
  JSON_stringify_object (stamp (length (chain self)) now (previous_hash self) o)
  = inl e →
  _addBlock block now self = (refused block now o self, Rejected e).
Proof.
  intros Hwf Ho Htext. now rewrite (_addBlock_cases block now o), Htext.
Qed.

End AddBlock.

Section Appends.
Context `{Collaborators}.

Lemma linear_well_formed (self : Blockchain) : linear self → well_formed self.
Proof.
  intros [Hchain _ _ _] block Hin. rewrite Hchain in Hin.
  apply elem_of_seq in Hin. lia.
Qed.

Lemma get_height_sealed (n : nat) (now : Z) (h : option value) (o : Block) :
  get_prop "height" (seal (stamp n now h o)) = VNum (Num (Z.of_nat n)).
Proof.
  unfold seal, stamp. rewrite get_set_prop_ne by discriminate.
  destruct h; rewrite ?get_set_prop_ne by discriminate;
    apply get_set_prop_eq.
Qed.

Lemma get_previous_sealed (n : nat) (now : Z) (h : value) (o : Block) :
  get_prop "previousBlockHash" (seal (stamp n now (Some h) o)) = h.
Proof.
  unfold seal, stamp. rewrite get_set_prop_ne by discriminate.
  apply get_set_prop_eq.
Qed.

Lemma get_hash_sealed (o : Block) : ∃ h : string, get_prop "hash" (seal o) = VStr h.
Proof. unfold seal. rewrite get_set_prop_eq. eexists. reflexivity. Qed.



Lemma new_Block_well_formed (data : value) (self : Blockchain) :
  well_formed self → well_formed (fst (new_Block data self)).
Proof.
  intros Hwf b Hin. simpl in *. rewrite length_app. simpl.
  apply Hwf in Hin. lia.
Qed.

(** A block object made and not yet appended changes nothing to the hash
    of the last block of the chain. *)
Lemma previous_hash_new_Block (data : value) (self : Blockchain) :
  well_formed self →
  previous_hash (fst (new_Block data self)) = previous_hash self.
Proof.
  intros Hwf. unfold previous_hash. simpl.
  destruct (last (chain self)) as [previous|] eqn:Hlast; [|reflexivity].
  assert (Hlt : (previous < length (objects self))%nat)
    by (apply Hwf, last_Some_elem_of, Hlast).
  now rewrite lookup_app_l.
Qed.

(** An append: the chain extended by the new block when line 71 gives the
    text to hash, and the new block left aside, with the rejection, when
    [JSON.stringify] throws. *)
Lemma append_cases (data : value) (now : Z) (self : Blockchain) :
  well_formed self →
  append data now self
  = match JSON_stringify_object (draft data now self) with
    | inr _ =>
        (extended data now self,
         verdict (length (objects self)) (validateChain (extended data now self)))
    | inl e => (orphaned data now self, Rejected e)
    end.
Proof.
  intros Hwf. unfold append. simpl.
  rewrite (_addBlock_cases _ now (Block_new data));
    [|now apply new_Block_well_formed
     |simpl; rewrite lookup_app_r by lia; now rewrite Nat.sub_diag].
  assert (Hprev : previous_hash
                    {| objects := objects self ++ [Block_new data];
                       chain := chain self;
                       height := height self |}
                  = previous_hash self)
    by exact (previous_hash_new_Block data self Hwf).
  assert (Hinsert : ∀ o : Block,
            <[length (objects self) := o]> (objects self ++ [Block_new data])
            = objects self ++ [o]).
  { intros o.
    replace (length (objects self)) with (length (objects self) + 0)%nat at 1
      by lia.
    now rewrite insert_app_r. }
  unfold appended, refused. simpl.
  rewrite Hprev. fold (draft data now self). rewrite !Hinsert.
  reflexivity.
Qed.

Lemma append_run (data : value) (now : Z) (text : string) (self : Blockchain) :
  well_formed self →
  JSON_stringify_object (draft data now self) = inr text →
  append data now self
  = (extended data now self,
     verdict (length (objects self)) (validateChain (extended data now self))).
Proof. intros Hwf Htext. now rewrite append_cases, Htext. Qed.

Lemma append_refused (data : value) (now : Z) (e : error) (self : Blockchain) :
  well_formed self →
  JSON_stringify_object (draft data now self) = inl e →
  append data now self = (orphaned data now self, Rejected e).
Proof. intros Hwf Htext. now rewrite append_cases, Htext. Qed.

(** An append that succeeded had the text of its block. *)
Lemma append_succeeded (data : value) (now : Z) (self : Blockchain) :
  well_formed self →
  succeeded (snd (append data now self)) →
  fst (append data now self) = extended data now self.
Proof.
  intros Hwf. rewrite append_cases by assumption.
  destruct (JSON_stringify_object (draft data now self)); [contradiction|].
  reflexivity.
Qed.

(** The store an append leaves, whichever way it went. *)
Lemma append_store (data : value) (now : Z) (self : Blockchain) :
  well_formed self →
  fst (append data now self) = extended data now self
  ∨ fst (append data now self) = orphaned data now self.
Proof.
  intros Hwf. rewrite append_cases by assumption.
  destruct (JSON_stringify_object (draft data now self)); auto.
Qed.

Lemma lookup_blocks_of (self : Blockchain) (i : nat) (o : Block) :
  blocks_of self !! i = Some o →
  ∃ block : loc, chain self !! i = Some block
                 ∧ o = default [] (objects self !! block).
Proof.
  unfold blocks_of. rewrite list_lookup_fmap.
  destruct (chain self !! i) as [block|]; simpl; [|discriminate].
  intros Ho. exists block. split; congruence.
Qed.

Lemma blocks_of_more (self : Blockchain) (more : list Block) (h : Z) :
  well_formed self →
  blocks_of {| objects := objects self ++ more; chain := chain self; height := h |}
  = blocks_of self.
Proof.
  intros Hwf. unfold blocks_of. simpl.
  apply list_fmap_ext. intros i b Hb.
  assert (Hlt : (b < length (objects self))%nat)
    by (apply Hwf; eapply list_elem_of_lookup_2; eauto).
  now rewrite lookup_app_l.
Qed.

Lemma blocks_of_extended (data : value) (now : Z) (self : Blockchain) :
  well_formed self →
  blocks_of (extended data now self)
  = blocks_of self ++ [seal (draft data now self)].
Proof.
  intros Hwf. unfold blocks_of, extended. simpl. rewrite fmap_app. f_equal.
  - apply list_fmap_ext. intros i b Hb.
    assert (Hlt : (b < length (objects self))%nat)
      by (apply Hwf; eapply list_elem_of_lookup_2; eauto).
    now rewrite lookup_app_l.
  - simpl. rewrite lookup_app_r by lia. now rewrite Nat.sub_diag.
Qed.

Lemma blocks_of_orphaned (data : value) (now : Z) (self : Blockchain) :
  well_formed self → blocks_of (orphaned data now self) = blocks_of self.
Proof. intros Hwf. now apply blocks_of_more. Qed.

Lemma extended_well_formed (data : value) (now : Z) (self : Blockchain) :
  well_formed self → well_formed (extended data now self).
Proof.
  intros Hwf b Hin. simpl in *. rewrite length_app. simpl.
  apply elem_of_app in Hin as [Hin|Hin].
  - apply Hwf in Hin. lia.
  - apply list_elem_of_singleton in Hin. lia.
Qed.

Lemma orphaned_well_formed (data : value) (now : Z) (self : Blockchain) :
  well_formed self → well_formed (orphaned data now self).
Proof.
  intros Hwf b Hin. simpl in *. rewrite length_app. simpl.
  apply Hwf in Hin. lia.
Qed.

Lemma append_well_formed (data : value) (now : Z) (self : Blockchain) :
  well_formed self → well_formed (fst (append data now self)).
Proof.
  intros Hwf. destruct (append_store data now self Hwf) as [-> | ->];
    auto using extended_well_formed, orphaned_well_formed.
Qed.

(** The link of a new block is the hash of the last block of the chain. *)
Lemma previous_hash_last (self : Blockchain) (tip : Block) :
  blocks_of self !! (length (chain self) - 1)%nat = Some tip →
  (0 < length (chain self))%nat →
  previous_hash self = Some (get_prop "hash" tip).
Proof.
  intros Htip Hlen. apply lookup_blocks_of in Htip as (block & Hblock & ->).
  unfold previous_hash. rewrite last_lookup_length in Hblock.
  now rewrite Hblock.
Qed.

Lemma extended_chained (data : value) (now : Z) (self : Blockchain) :
  chained self → chained (extended data now self).
Proof.
  intros Hc. pose proof (chained_refs _ Hc) as Hwf.
  pose proof (blocks_of_extended data now self Hwf) as Hblocks.
  split.
  - now apply extended_well_formed.
  - simpl. apply NoDup_app. split; [apply (chained_once _ Hc)|]. split.
    + intros b Hin Hnew. apply list_elem_of_singleton in Hnew. subst b.
      apply Hwf in Hin. lia.
    + apply NoDup_singleton.
  - simpl. rewrite length_app. simpl. lia.
  - intros i o Ho. rewrite Hblocks in Ho.
    apply lookup_app_Some in Ho as [Ho|[Hge Ho]].
    + eapply chained_heights; eauto.
    + apply list_lookup_singleton_Some in Ho as [Hi <-].
      rewrite length_blocks_of in Hge, Hi. unfold draft.
      rewrite get_height_sealed. do 2 f_equal. lia.
  - intros i o o' Ho Ho'. rewrite Hblocks in Ho, Ho'.
    apply lookup_app_Some in Ho' as [Ho'|[Hge Ho']].
    + rewrite lookup_app_l in Ho by (apply lookup_lt_Some in Ho'; lia).
      eapply chained_links; eauto.
    + apply list_lookup_singleton_Some in Ho' as [Hi <-].
      rewrite length_blocks_of in Hge, Hi.
      rewrite lookup_app_l in Ho by (rewrite length_blocks_of; lia).
      replace i with (length (chain self) - 1)%nat in Ho by lia.
      unfold draft.
      rewrite (previous_hash_last self o Ho) by lia.
      now rewrite get_previous_sealed.
  - intros i o Ho. rewrite Hblocks in Ho.
    apply lookup_app_Some in Ho as [Ho|[_ Ho]].
    + eapply chained_hash; eauto.
    + apply list_lookup_singleton_Some in Ho as [_ <-]. apply get_hash_sealed.
Qed.

Lemma orphaned_chained (data : value) (now : Z) (self : Blockchain) :
  chained self → chained (orphaned data now self).
Proof.
  intros Hc. pose proof (chained_refs _ Hc) as Hwf.
  pose proof (blocks_of_orphaned data now self Hwf) as Hblocks.
  split; rewrite ?Hblocks.
  - now apply orphaned_well_formed.
  - apply (chained_once _ Hc).
  - apply (chained_height _ Hc).
  - apply (chained_heights _ Hc).
  - apply (chained_links _ Hc).
  - apply (chained_hash _ Hc).
Qed.

Lemma append_chained (data : value) (now : Z) (self : Blockchain) :
  chained self → chained (fst (append data now self)).
Proof.
  intros Hc.
  destruct (append_store data now self (chained_refs _ Hc)) as [-> | ->];
    auto using extended_chained, orphaned_chained.
Qed.

Lemma empty_store_chained : chained empty_store.
Proof.
  split; simpl; try reflexivity.
  - intros b Hb. apply elem_of_nil in Hb. contradiction.
  - apply NoDup_nil_2.
  - intros i o Ho. apply lookup_lt_Some in Ho.
    rewrite length_blocks_of in Ho. simpl in Ho. lia.
  - intros i o o' Ho. apply lookup_lt_Some in Ho.
    rewrite length_blocks_of in Ho. simpl in Ho. lia.
  - intros i o Ho. apply lookup_lt_Some in Ho.
    rewrite length_blocks_of in Ho. simpl in Ho. lia.
Qed.

Lemma Blockchain_new_append (now : Z) :
  Blockchain_new now
  = fst (append (VObj [("data", VStr "Genesis Block")]) now empty_store).
Proof.
  unfold Blockchain_new, initializeChain, async, append. simpl.
  unfold mbind, M_bind, await_call. simpl.
  match goal with |- context [_addBlock ?b ?t ?s] =>
    destruct (_addBlock b t s) as [self' [block|e|]] end; reflexivity.
Qed.

Lemma Blockchain_new_chained (now : Z) : chained (Blockchain_new now).
Proof. rewrite Blockchain_new_append. apply append_chained, empty_store_chained. Qed.

Lemma appends_chained (inputs : list (value * Z)) (self : Blockchain) :
  chained self →
  chained (fst (appends inputs self))
  ∧ (Forall succeeded (snd (appends inputs self)) →
     length (chain (fst (appends inputs self)))
     = (length (chain self) + length inputs)%nat).
Proof.
  revert self. induction inputs as [|[data now] inputs IH]; intros self Hc; simpl.
  - split; [assumption|intros _; lia].
  - pose proof (append_chained data now self Hc) as Hc1.
    pose proof (append_succeeded data now self (chained_refs _ Hc)) as Hext.
    destruct (append data now self) as [self1 result]. simpl in *.
    destruct (IH self1 Hc1) as [Hc2 Hlen].
    destruct (appends inputs self1) as [self2 results]. simpl in *.
    split; [assumption|]. intros Hall.
    apply Forall_cons in Hall as [Hresult Hall].
    rewrite (Hlen Hall), (Hext Hresult). simpl. rewrite length_app. simpl. lia.
Qed.

Lemma linear_blocks_of (self : Blockchain) :
  linear self → blocks_of self = objects self.
Proof.
  intros Hlin. unfold blocks_of. rewrite (linear_chain _ Hlin).
  apply list_eq. intros i. rewrite list_lookup_fmap.
  destruct (decide (i < length (objects self))%nat) as [Hi|Hi].
  - rewrite lookup_seq_lt by assumption. simpl.
    destruct (lookup_lt_is_Some_2 _ _ Hi) as [o Ho]. now rewrite Ho.
  - rewrite lookup_seq_ge by lia. simpl. symmetry. apply lookup_ge_None. lia.
Qed.

Lemma block_nth_lookup (blocks : list Block) (i : nat) :
  (i < length blocks)%nat → blocks !! i = Some (block_nth blocks i).
Proof.
  intros Hi. destruct (lookup_lt_is_Some_2 blocks i Hi) as [o Ho].
  unfold block_nth. now rewrite (nth_lookup_Some _ _ _ _ Ho).
Qed.

(** C1.  After [n] appends in sequence on a fresh store that has its first
    block at index 0, each of which succeeded, the height is [n], the chain
    has [n + 1] blocks, the hash of every block is the previous hash of the
    block that follows it, and the block at index [i] has height [i]. *)
Theorem appends_chain (now0 : Z) (inputs : list (value * Z))
    (self : Blockchain) (results : list (outcome loc)) :
  chain (Blockchain_new now0) = [0%nat] →
  appends inputs (Blockchain_new now0) = (self, results) →
  Forall succeeded results →
  height self = Z.of_nat (length inputs)
  ∧ length (chain self) = (length inputs + 1)%nat
  ∧ (∀ i : nat, (i + 1 < length (chain self))%nat →
       get_prop "hash" (block_nth (blocks_of self) i)
       = get_prop "previousBlockHash" (block_nth (blocks_of self) (i + 1)))
  ∧ (∀ i : nat, (i < length (chain self))%nat →
       get_prop "height" (block_nth (blocks_of self) i) = VNum (Num (Z.of_nat i))).
Proof.
  intros Hfirst Hrun Hall.
  destruct (appends_chained inputs _ (Blockchain_new_chained now0)) as [Hc Hlen].
  rewrite Hrun in Hc, Hlen. simpl in Hc, Hlen.
  specialize (Hlen Hall). rewrite Hfirst in Hlen. simpl in Hlen.
  split; [|split; [|split]].
  - rewrite (chained_height _ Hc), Hlen. lia.
  - lia.
  - intros i Hi.
    eapply (chained_links _ Hc);
      apply block_nth_lookup; rewrite length_blocks_of; lia.
  - intros i Hi.
    apply (chained_heights _ Hc), block_nth_lookup.
    rewrite length_blocks_of. lia.
Qed.

(** A fresh store holds the first block alone, at height 0, with the
    previous hash its constructor gave it, and is valid; when
    [JSON.stringify] throws on the first block its constructor made, the
    chain is empty and the height is -1. *)
Theorem fresh_store (now : Z) :
  match JSON_stringify_object
          (draft (VObj [("data", VStr "Genesis Block")]) now empty_store) with
  | inr _ =>
      height (Blockchain_new now) = 0
      ∧ length (chain (Blockchain_new now)) = 1%nat
      ∧ get_prop "height" (block_nth (blocks_of (Blockchain_new now)) 0)
        = VNum (Num 0)
      ∧ get_prop "previousBlockHash"
          (block_nth (blocks_of (Blockchain_new now)) 0)
        = get_prop "previousBlockHash"
            (Block_new (VObj [("data", VStr "Genesis Block")]))
      ∧ validateChain (Blockchain_new now) = Resolved Valid
  | inl _ =>
      height (Blockchain_new now) = -1 ∧ chain (Blockchain_new now) = []
  end.
Proof.
  rewrite Blockchain_new_append, append_cases
    by apply (chained_refs _ empty_store_chained).
  destruct (JSON_stringify_object _) as [e|text]; simpl; [now split|].
  repeat split; unfold blocks_of, block_nth; simpl.
  - apply get_height_sealed.
  - unfold seal, draft, stamp. simpl.
    now rewrite !get_set_prop_ne by discriminate.
Qed.

(** [initializeChain] does nothing to a store that has its first block. *)
Theorem initializeChain_idempotent (now : Z) (self : Blockchain) :
  height self ≠ -1 → initializeChain now self = (self, Resolved tt).
Proof.
  intros Hheight. unfold initializeChain, async.
  apply Z.eqb_neq in Hheight. now rewrite Hheight.
Qed.

End Appends.

(** ** submitStar *)

Section SubmitStar.
Context `{Collaborators}.

(** The promise of [_addBlock] resolves with the block it was given. *)
Lemma _addBlock_resolves (block : loc) (now : Z) (self self' : Blockchain)
    (result : loc) :
  _addBlock block now self = (self', Resolved result) → result = block.
Proof.
  unfold _addBlock, new_Promise, try_catch, mbind, M_bind, mret, M_ret,
    chain_length, await_read, set_height, push, settled.
  intros Hrun. repeat case_match; simplify_eq; reflexivity.
Qed.

Lemma submitStar_run (address : value) (message : string)
    (signature star : value) (now now_add : Z) (self : Blockchain) :
  submitStar address (VStr message) signature star now now_add self
  = if expired message now then (self, Rejected ChallengeExpiredError)
    else verified_submit address message signature star now_add self.
Proof.
  unfold submitStar, expired, currentTime, messageTime, verified_submit,
    new_Promise, try_catch.
  destruct (num_geb _ _); [reflexivity|].
  unfold mbind, M_bind, throwing.
  destruct (bitcoinMessage_verify message address signature) as [e|[|]];
    try reflexivity.
  unfold append, new_Block, await_call. simpl.
  match goal with |- context [_addBlock ?b ?t ?s] =>
    destruct (_addBlock b t s) as [self' [block|e|]] eqn:Hadd end;
    try reflexivity.
  apply _addBlock_resolves in Hadd. now subst block.
Qed.

(** C5.  With [c] the clock in seconds and [m] the timestamp in the second
    field of the message, [submitStar] rejects with "5 minute validation
    time has passed" as soon as [c - m] is 300 or more, 300 included, and
    with less than 300 it goes on to verify the signature. *)
Theorem submitStar_freshness (address : value) (message : string)
    (signature star : value) (now now_add : Z) (self : Blockchain) (c m : Z) :
  currentTime now = Num c →
  messageTime message = Num m →
  submitStar address (VStr message) signature star now now_add self
  = if 300 <=? c - m then (self, Rejected ChallengeExpiredError)
    else verified_submit address message signature star now_add self.
Proof.
  intros Hc Hm. rewrite submitStar_run. unfold expired. rewrite Hc, Hm. simpl.
  rewrite Z.geb_leb. reflexivity.
Qed.

(** C6, as the code has it.  When the challenge has not expired and the
    verification of the signature returns false, [submitStar] rejects with
    "Verification is invalid" and leaves the store as it was. *)
Theorem submitStar_bad_signature (address : value) (message : string)
    (signature star : value) (now now_add : Z) (self : Blockchain) :
  expired message now = false →
  bitcoinMessage_verify message address signature = inr false →
  submitStar address (VStr message) signature star now now_add self
  = (self, Rejected SignatureInvalidError).
Proof.
  intros Hfresh Hverify. rewrite submitStar_run, Hfresh.
  unfold verified_submit. now rewrite Hverify.
Qed.

(** An expired challenge is rejected before the signature is looked at. *)
Lemma submitStar_expired (address : value) (message : string)
    (signature star : value) (now now_add : Z) (self : Blockchain) :
  expired message now = true →
  submitStar address (VStr message) signature star now now_add self
  = (self, Rejected ChallengeExpiredError).
Proof. intros Hexpired. now rewrite submitStar_run, Hexpired. Qed.

(** C10.  When the second field of the message is not a number, the
    elapsed time is [NaN], the test of line 135 is false, and [submitStar]
    goes on to verify the signature: it never rejects such a message as
    expired. *)
Theorem submitStar_NaN (address : value) (message : string)
    (signature star : value) (now now_add : Z) (self : Blockchain) :
  messageTime message = NaN →
  expired message now = false
  ∧ submitStar address (VStr message) signature star now now_add self
    = verified_submit address message signature star now_add self.
Proof.
  intros Hm.
  assert (Hfresh : expired message now = false).
  { unfold expired. rewrite Hm. now destruct (currentTime now). }
  split; [assumption|]. now rewrite submitStar_run, Hfresh.
Qed.

End SubmitStar.

(** ** getStarsByWalletAddress *)

Section Stars.
Context `{Collaborators}.

Lemma property_owner (blockData : value) :
  has_properties blockData →
  property blockData "owner" = Return (owner_of blockData).
Proof. intros [H1 H2]. destruct blockData; simpl; congruence. Qed.

Lemma for_loop_S {S : Type} (i count : nat) (body : nat -> S -> exec S) (s : S) :
  for_loop i (Datatypes.S count) body s
  = (s' ← body i s; for_loop (Datatypes.S i) count body s').
Proof. reflexivity. Qed.

Lemma stars_step_run (address : value) (self : Blockchain) (i : nat)
    (stars : list value) (block : Block) (blockData : value) :
  well_formed self →
  blocks_of self !! i = Some block →
  Block_getBData block = Resolved blockData →
  has_properties blockData →
  stars_step address self i stars
  = Return (stars ++ stars_of address [blockData]).
Proof.
  intros Hwf Hblock Hdata Hprops.
  assert (Hi : (i < length (chain self))%nat).
  { rewrite <- length_blocks_of. eapply lookup_lt_Some; eauto. }
  unfold stars_step.
  rewrite block_at_well_formed by assumption.
  unfold block_nth. rewrite (nth_lookup_Some _ _ _ _ Hblock).
  simpl. rewrite Hdata. simpl. rewrite property_owner by assumption. simpl.
  destruct (strict_eq (owner_of blockData) address); simpl;
    now rewrite ?app_nil_r.
Qed.

Lemma stars_loop (address : value) (self : Blockchain) (decoded : list value)
    (i : nat) (stars : list value) :
  well_formed self →
  Forall2 (fun block blockData =>
             Block_getBData block = Resolved blockData
             ∧ has_properties blockData)
          (drop i (blocks_of self)) decoded →
  for_loop i (length decoded) (stars_step address self) stars
  = Return (stars ++ stars_of address decoded).
Proof.
  intros Hwf. revert i stars.
  induction decoded as [|blockData decoded IH]; intros i stars Hdec.
  - simpl. now rewrite app_nil_r.
  - cbn [length]. rewrite for_loop_S.
    inversion Hdec as [|block ? rest ? [Hdata Hprops] Hrest Hdrop]; subst.
    assert (Hblock : blocks_of self !! i = Some block).
    { rewrite <- (Nat.add_0_r i), <- lookup_drop, <- Hdrop. reflexivity. }
    assert (Hnext : drop (S i) (blocks_of self) = rest).
    { pose proof (drop_S _ _ _ Hblock) as E. rewrite <- Hdrop in E.
      now inversion E. }
    rewrite <- Hnext in Hrest.
    rewrite (stars_step_run address self i stars block blockData) by assumption.
    simpl. rewrite IH by assumption. rewrite <- app_assoc.
    now destruct (strict_eq (owner_of blockData) address).
Qed.

(** C7.  When the body of every block after the first decodes,
    [getStarsByWalletAddress] resolves with the decoded bodies whose owner
    is the address, in the order of the chain, which is that of the
    heights; the first block is not looked at, whatever its body. *)
Theorem getStars_spec (address : value) (self : Blockchain)
    (decoded : list value) :
  well_formed self →
  Forall2 (fun block blockData =>
             Block_getBData block = Resolved blockData
             ∧ has_properties blockData)
          (drop 1 (blocks_of self)) decoded →
  getStarsByWalletAddress address self = Resolved (stars_of address decoded).
Proof.
  intros Hwf Hdec. unfold getStarsByWalletAddress.
  assert (Hlen : (length (chain self) - 1)%nat = length decoded).
  { apply Forall2_length in Hdec. rewrite length_drop, length_blocks_of in Hdec.
    exact Hdec. }
  rewrite Hlen.
  rewrite (stars_loop address self decoded 1 []) by assumption.
  reflexivity.
Qed.

End Stars.

Section StarsFailure.
Context `{Collaborators}.

Lemma stars_loop_failure (address : value) (self : Blockchain) (e : error)
    (n i count : nat) (stars : list value) (block : Block) :
  well_formed self →
  blocks_of self !! (i + n)%nat = Some block →
  Block_getBData block = Rejected e →
  (∀ k : nat, (i <= k < i + n)%nat →
     ∃ (b : Block) (d : value),
       blocks_of self !! k = Some b ∧ Block_getBData b = Resolved d
       ∧ has_properties d) →
  (n < count)%nat →
  for_loop i count (stars_step address self) stars = Throw e.
Proof.
  intros Hwf. revert i count stars.
  induction n as [|n IH]; intros i count stars Hblock Hfail Hbefore Hcount;
    (destruct count as [|count]; [lia|]); rewrite for_loop_S.
  - rewrite Nat.add_0_r in Hblock.
    assert (Hi : (i < length (chain self))%nat).
    { rewrite <- length_blocks_of. eapply lookup_lt_Some; eauto. }
    unfold stars_step. rewrite block_at_well_formed by assumption.
    unfold block_nth. rewrite (nth_lookup_Some _ _ _ _ Hblock).
    simpl. now rewrite Hfail.
  - destruct (Hbefore i ltac:(lia)) as (b & d & Hb & Hd & Hprops).
    rewrite (stars_step_run address self i stars b d) by assumption.
    simpl. apply IH; try assumption; try lia.
    + now replace (S i + n)%nat with (i + S n)%nat by lia.
    + intros k Hk. apply Hbefore. lia.
Qed.

(** C8, as the code has it.  When the body of a block after the first
    fails to decode, and those before it decode, the promise of
    [getStarsByWalletAddress] is neither rejected with the decode error nor
    resolved: the body has no [try], the exception escapes the async
    executor, and the promise stays pending. *)
Theorem getStars_decode_failure (address : value) (self : Blockchain)
    (e : error) (j : nat) (block : Block) :
  well_formed self →
  (1 <= j)%nat →
  blocks_of self !! j = Some block →
  Block_getBData block = Rejected e →
  (∀ k : nat, (1 <= k < j)%nat →
     ∃ (b : Block) (d : value),
       blocks_of self !! k = Some b ∧ Block_getBData b = Resolved d
       ∧ has_properties d) →
  getStarsByWalletAddress address self = Pending
  ∧ getStarsByWalletAddress address self ≠ Rejected e.
Proof.
  intros Hwf Hj Hblock Hfail Hbefore.
  assert (Hrun : getStarsByWalletAddress address self = Pending).
  { unfold getStarsByWalletAddress.
    rewrite (stars_loop_failure address self e (j - 1) 1 _ [] block);
      try assumption.
    - reflexivity.
    - now replace (1 + (j - 1))%nat with j by lia.
    - intros k Hk. apply Hbefore. lia.
    - apply lookup_lt_Some in Hblock. rewrite length_blocks_of in Hblock. lia. }
  split; [assumption|]. rewrite Hrun. discriminate.
Qed.

End StarsFailure.

Section AddBlockClaims.
Context `{Collaborators}.

(** C3.  When [JSON.stringify] gives the text of the block, so that the
    block is pushed and the extended chain validated, and that validation
    reports errors, the promise is rejected with "Blockchain is not
    valid!", and the block stays the last of the chain with the height
    counting it: nothing is rolled back. *)
Theorem addBlock_no_rollback (block : loc) (now : Z) (o : Block)
    (text : string) (self self' : Blockchain)
    (result : outcome loc) (errors : nat) (log : list nat) :
  well_formed self →
  objects self !! block = Some o →
  JSON_stringify_object (stamp (length (chain self)) now (previous_hash self) o)
  = inr text →
  _addBlock block now self = (self', result) →
  validateChain self' = Resolved (Invalid errors log) →
  result = Rejected ChainIntegrityError
  ∧ chain self' = chain self ++ [block]
  ∧ height self' = Z.of_nat (length (chain self))
  ∧ height self' = Z.of_nat (length (chain self')) - 1.
Proof.
  intros Hwf Ho Htext Hrun Hinvalid.
  rewrite (_addBlock_run block now o text) in Hrun by assumption.
  inversion Hrun; subst self' result. clear Hrun.
  rewrite Hinvalid. simpl. rewrite length_app. simpl.
  repeat split; try reflexivity. lia.
Qed.

(** C4, as the code has it.  The hash stored by [_addBlock] is the digest
    of the JSON text of the whole block as it stands once its height, its
    time and its previous hash are assigned: the body and whatever [hash]
    property the block already carried are part of what is hashed. *)
Theorem addBlock_hash (block : loc) (now : Z) (o : Block) (text : string)
    (self self' : Blockchain) (result : outcome loc) :
  well_formed self →
  objects self !! block = Some o →
  JSON_stringify_object (stamp (length (chain self)) now (previous_hash self) o)
  = inr text →
  _addBlock block now self = (self', result) →
  let hashed := stamp (length (chain self)) now (previous_hash self) o in
  objects self' !! block
  = Some (set_prop "hash" (VStr (SHA256 text)) hashed)
  ∧ get_prop "hash" hashed = get_prop "hash" o
  ∧ get_prop "body" hashed = get_prop "body" o.
Proof.
  intros Hwf Ho Htext Hrun hashed.
  rewrite (_addBlock_run block now o text) in Hrun by assumption.
  inversion Hrun; subst self' result. clear Hrun.
  split; [|split].
  - simpl. unfold seal. rewrite (JSON_text_eq _ _ Htext).
    apply list_lookup_insert_eq. eapply lookup_lt_Some; eauto.
  - subst hashed. unfold stamp.
    destruct (previous_hash self); now rewrite !get_set_prop_ne by discriminate.
  - subst hashed. unfold stamp.
    destruct (previous_hash self); now rewrite !get_set_prop_ne by discriminate.
Qed.

Lemma get_time_stamped (n : nat) (now : Z) (h : option value) (o : Block) :
  get_prop "time" (stamp n now h o) = VStr (slice_0_m3 (Z_toString now)).
Proof.
  unfold stamp. destruct h; rewrite ?get_set_prop_ne by discriminate;
    apply get_set_prop_eq.
Qed.

(** C9, as the code has it.  The time stored by [_addBlock] is a string:
    the decimal digits of the clock in milliseconds without the last
    three, read when the block is appended.  From a clock of 1000 on these
    are the digits of the clock in whole seconds, and [parseInt] reads that
    integer back; below 1000 the string is empty. *)
Theorem addBlock_time (block : loc) (now : Z) (self self' : Blockchain)
    (result : outcome loc) :
  well_formed self →
  is_Some (objects self !! block) →
  _addBlock block now self = (self', result) →
  ∃ o' : Block,
    objects self' !! block = Some o'
    ∧ get_prop "time" o' = VStr (slice_0_m3 (Z_toString now))
    ∧ (1000 <= now →
       get_prop "time" o' = VStr (Z_toString (now / 1000))
       ∧ parseInt (get_prop "time" o') = Num (now / 1000))
    ∧ (0 <= now < 1000 →
       get_prop "time" o' = VStr "" ∧ parseInt (get_prop "time" o') = NaN).
Proof.
  intros Hwf [o Ho] Hrun.
  assert (Hlt : (block < length (objects self))%nat)
    by (eapply lookup_lt_Some; eauto).
  assert (Hstored : ∃ o' : Block,
            objects self' !! block = Some o'
            ∧ get_prop "time" o' = VStr (slice_0_m3 (Z_toString now))).
  { rewrite (_addBlock_cases block now o) in Hrun by assumption.
    destruct (JSON_stringify_object _) as [e|text];
      inversion Hrun; subst self' result; clear Hrun; simpl;
      eexists; (split; [now apply list_lookup_insert_eq|]).
    - apply get_time_stamped.
    - unfold seal. rewrite get_set_prop_ne by discriminate.
      apply get_time_stamped. }
  destruct Hstored as (o' & Ho' & Htime). exists o'.
  split; [assumption|]. split; [assumption|]. rewrite Htime. split.
  - intros Hnow. split.
    + now rewrite slice_toString_seconds.
    + now apply currentTime_seconds.
  - intros Hnow. now rewrite slice_toString_early.
Qed.

End AddBlockClaims.

(** ** The class at work *)

Lemma well_formedb_sound (self : Blockchain) :
  well_formedb self = true → well_formed self.
Proof.
  unfold well_formedb, well_formed. rewrite forallb_forall.
  intros Hall block Hin. apply Nat.ltb_lt, Hall. now apply list_elem_of_In.
Qed.

Example sha256_abc :
  Digest.sha256 "abc"
  = "ba7816bf8f01cfea414140de5dae2223b00361a396177a9cb410ff61f20015ad".
Proof. vm_compute. reflexivity. Qed.

Example sha256_empty :
  Digest.sha256 ""
  = "e3b0c44298fc1c149afbf4c8996fb92427ae41e4649b934ca495991b7852b855".
Proof. vm_compute. reflexivity. Qed.

Example toString_clock : Z_toString 1700000000123 = "1700000000123".
Proof. reflexivity. Qed.

Example split_challenge :
  split ":" challenge = ["addr1"; "1700000000"; "starRegistry"].
Proof. reflexivity. Qed.

Example challenge_issued :
  requestMessageOwnershipVerification (VStr "addr1") 1700000000123
  = Resolved challenge.
Proof. vm_compute. reflexivity. Qed.

Example messageTime_challenge : messageTime challenge = Num 1700000000.
Proof. vm_compute. reflexivity. Qed.

Example messageTime_no_colon : messageTime "addr1" = NaN.
Proof. vm_compute. reflexivity. Qed.

Example messageTime_not_a_number : messageTime "addr1:soon:starRegistry" = NaN.
Proof. vm_compute. reflexivity. Qed.

(** The two stars are appended, and the chain is valid. *)
Example star_store_run :
  @appends reference two_stars (@Blockchain_new reference 1700000000123)
  = (star_store, [Resolved 1%nat; Resolved 2%nat])
  ∧ chain star_store = [0; 1; 2]%nat
  ∧ @validateChain reference star_store = Resolved Valid.
Proof. vm_compute. repeat split. Qed.

(** Appending a block that is in the chain already: the chain holds the
    same object twice, so the block at index 1 now shows height 3; the
    validation fails and the promise is rejected. *)
Example append_twice :
  snd twice_appended = Rejected ChainIntegrityError
  ∧ chain (fst twice_appended) = [0; 1; 2; 1]%nat
  ∧ get_prop "height" (block_nth (blocks_of (fst twice_appended)) 1) = VNum (Num 3).
Proof. vm_compute. repeat split. Qed.

(** C1 on the run of the two stars. *)
Lemma appends_chain_witness :
  height star_store = 2
  ∧ length (chain star_store) = 3%nat
  ∧ (∀ i : nat, (i + 1 < length (chain star_store))%nat →
       get_prop "hash" (block_nth (blocks_of star_store) i)
       = get_prop "previousBlockHash" (block_nth (blocks_of star_store) (i + 1)))
  ∧ (∀ i : nat, (i < length (chain star_store))%nat →
       get_prop "height" (block_nth (blocks_of star_store) i)
       = VNum (Num (Z.of_nat i))).
Proof.
  apply (appends_chain (H := reference) 1700000000123 two_stars star_store
           [Resolved 1%nat; Resolved 2%nat]).
  - vm_compute. reflexivity.
  - vm_compute. reflexivity.
  - repeat constructor.
Defined.

(** C2 on the tampered store: the first block fails its self-check and no
    longer links to the second, so index 0 is logged twice. *)
Lemma validateChain_log_witness :
  validateChain_with spec_Block_validate tampered_store
  = Resolved (Invalid 2 [0; 0]%nat).
Proof.
  destruct (validateChain_log spec_Block_validate
              (fun i => negb (i =? 0)%nat) tampered_store) as [Hrun _].
  - apply well_formedb_sound. vm_compute. reflexivity.
  - assert (Hlen : length (chain tampered_store) = 3%nat)
      by (vm_compute; reflexivity).
    rewrite Hlen. intros [|[|i]] Hi; [vm_compute; reflexivity..|lia].
  - rewrite Hrun. vm_compute. reflexivity.
Defined.

(** The self-check of the last block is not run: tampering with the last
    block alone goes unnoticed. *)
Example last_block_unchecked :
  spec_Block_validate
    (block_nth (blocks_of (tamper 2 "body" (VStr "garbage") star_store)) 2)
  = Resolved false
  ∧ @validateChain reference (tamper 2 "body" (VStr "garbage") star_store)
    = Resolved Valid.
Proof. vm_compute. repeat split. Qed.

(** C3 on the tampered store: the append is rejected and the block stays. *)
Lemma addBlock_no_rollback_witness :
  snd failed_append = Rejected ChainIntegrityError
  ∧ chain (fst failed_append) = [0; 1; 2; 3]%nat
  ∧ height (fst failed_append) = 3.
Proof.
  destruct (addBlock_no_rollback (H := reference) 3 1700000300000
              (spec_Block_new (star_of "addr1" vega))
              (JSON_text (stamp 3 1700000300000
                            (previous_hash (pending_block tampered_store))
                            (spec_Block_new (star_of "addr1" vega))))
              (pending_block tampered_store) (fst failed_append)
              (snd failed_append) 2 [0; 0]%nat)
    as (Hresult & Hchain & Hheight & _).
  - apply well_formedb_sound. vm_compute. reflexivity.
  - vm_compute. reflexivity.
  - vm_compute. reflexivity.
  - vm_compute. reflexivity.
  - vm_compute. reflexivity.
  - rewrite Hresult, Hchain, Hheight. vm_compute. repeat split.
Defined.

(** C4 fails as stated: two blocks appended with the same height, time,
    previous hash and body get different hashes, because one of them had a
    [hash] property when it was hashed. *)
Lemma hash_depends_on_prior_hash :
  get_prop "height" (block_nth (blocks_of (fst fresh_append)) 1)
  = get_prop "height" (block_nth (blocks_of (fst stale_append)) 1)
  ∧ get_prop "time" (block_nth (blocks_of (fst fresh_append)) 1)
    = get_prop "time" (block_nth (blocks_of (fst stale_append)) 1)
  ∧ get_prop "previousBlockHash" (block_nth (blocks_of (fst fresh_append)) 1)
    = get_prop "previousBlockHash" (block_nth (blocks_of (fst stale_append)) 1)
  ∧ get_prop "body" (block_nth (blocks_of (fst fresh_append)) 1)
    = get_prop "body" (block_nth (blocks_of (fst stale_append)) 1)
  ∧ get_prop "hash" (block_nth (blocks_of (fst fresh_append)) 1)
    ≠ get_prop "hash" (block_nth (blocks_of (fst stale_append)) 1).
Proof. vm_compute. repeat split. discriminate. Qed.

(** C4, as the code has it, on the block that had a hash. *)
Lemma addBlock_hash_witness :
  objects (fst stale_append) !! 1%nat
  = Some (@seal reference
            (stamp 1 1700000100456 (previous_hash stale_block_store) stale_block))
  ∧ get_prop "hash"
      (stamp 1 1700000100456 (previous_hash stale_block_store) stale_block)
    = get_prop "hash" stale_block
  ∧ get_prop "body"
      (stamp 1 1700000100456 (previous_hash stale_block_store) stale_block)
    = get_prop "body" stale_block.
Proof.
  apply (addBlock_hash (H := reference) 1 1700000100456 stale_block
           (JSON_text (stamp 1 1700000100456 (previous_hash stale_block_store)
                         stale_block))
           stale_block_store (fst stale_append) (snd stale_append)).
  - apply well_formedb_sound. vm_compute. reflexivity.
  - vm_compute. reflexivity.
  - vm_compute. reflexivity.
  - vm_compute. reflexivity.
Defined.

(** C5 at the boundary: 300 seconds after the challenge it has expired. *)
Lemma submitStar_freshness_witness :
  @submitStar reference (VStr "addr1") (VStr challenge) good_signature polaris
    1700000300000 1700000300000 genesis_store
  = (genesis_store, Rejected ChallengeExpiredError).
Proof.
  rewrite (submitStar_freshness (H := reference) _ _ _ _ _ _ _
             1700000300 1700000000);
    [reflexivity|vm_compute; reflexivity..].
Defined.

(** 299 seconds after the challenge the star is appended. *)
Example submitStar_at_299 :
  snd (@submitStar reference (VStr "addr1") (VStr challenge) good_signature polaris
         1700000299999 1700000299999 genesis_store)
  = Resolved 1%nat.
Proof. vm_compute. reflexivity. Qed.

(** C6 fails as stated: with an expired challenge and a forged signature,
    the rejection is the one of the expired challenge. *)
Lemma expired_bad_signature :
  stand_in_verify challenge (VStr "addr1") bad_signature = inr false
  ∧ @submitStar reference (VStr "addr1") (VStr challenge) bad_signature polaris
      1700000300000 1700000300000 genesis_store
    = (genesis_store, Rejected ChallengeExpiredError)
  ∧ ChallengeExpiredError ≠ SignatureInvalidError.
Proof. repeat split; [vm_compute; reflexivity..|discriminate]. Qed.

(** C6, as the code has it: a forged signature on a fresh challenge. *)
Lemma submitStar_bad_signature_witness :
  @submitStar reference (VStr "addr1") (VStr challenge) bad_signature polaris
    1700000200000 1700000200000 genesis_store
  = (genesis_store, Rejected SignatureInvalidError).
Proof.
  apply (submitStar_bad_signature (H := reference)); vm_compute; reflexivity.
Defined.

(** C7 on the run of the two stars. *)
Lemma getStars_spec_witness :
  @getStarsByWalletAddress reference (VStr "addr1") star_store
  = Resolved [star_of "addr1" polaris].
Proof.
  rewrite (getStars_spec (H := reference) (VStr "addr1") star_store
             [star_of "addr1" polaris; star_of "addr2" vega]).
  - reflexivity.
  - apply well_formedb_sound. vm_compute. reflexivity.
  - vm_compute. repeat constructor; discriminate.
Defined.

(** The first block is skipped even when its body names the address. *)
Example getStars_skips_first_block :
  spec_Block_getBData (block_nth (blocks_of claimed_genesis_store) 0)
  = Resolved (star_of "addr1" vega)
  ∧ @getStarsByWalletAddress reference (VStr "addr1") claimed_genesis_store
    = Resolved [star_of "addr1" polaris].
Proof. vm_compute. repeat split. Qed.

(** C8 on the store whose block at index 1 does not decode. *)
Lemma getStars_decode_failure_witness :
  @getStarsByWalletAddress reference (VStr "addr1") garbled_store = Pending
  ∧ @getStarsByWalletAddress reference (VStr "addr1") garbled_store
    ≠ Rejected (Error "The body does not decode").
Proof.
  apply (getStars_decode_failure (H := reference) (VStr "addr1") garbled_store
           (Error "The body does not decode") 1
           (block_nth (blocks_of garbled_store) 1)).
  - apply well_formedb_sound. vm_compute. reflexivity.
  - lia.
  - vm_compute. reflexivity.
  - vm_compute. reflexivity.
  - intros k Hk. lia.
Defined.

(** C9 fails as stated: the stored time is a string, not a number. *)
Lemma time_is_a_string :
  get_prop "time" (block_nth (blocks_of star_store) 1) = VStr "1700000100"
  ∧ get_prop "time" (block_nth (blocks_of star_store) 1)
    ≠ VNum (Num 1700000100).
Proof. vm_compute. split; [reflexivity|discriminate]. Qed.

(** C9, as the code has it, on the first star. *)
Lemma addBlock_time_witness :
  ∃ o' : Block,
    objects (fst fresh_append) !! 1%nat = Some o'
    ∧ get_prop "time" o' = VStr (Z_toString (1700000100456 / 1000))
    ∧ parseInt (get_prop "time" o') = Num (1700000100456 / 1000).
Proof.
  destruct (addBlock_time (H := reference) 1 1700000100456 fresh_block_store
              (fst fresh_append) (snd fresh_append))
    as (o' & Ho' & _ & Hseconds & _).
  - apply well_formedb_sound. vm_compute. reflexivity.
  - vm_compute. eexists. reflexivity.
  - vm_compute. reflexivity.
  - exists o'. split; [exact Ho'|]. apply Hseconds. lia.
Defined.

(** C10 on a message without a colon. *)
Lemma submitStar_NaN_witness :
  expired "addr1" 1700000300000 = false
  ∧ @submitStar reference (VStr "addr1") (VStr "addr1") bad_signature polaris
      1700000300000 1700000300000 genesis_store
    = @verified_submit reference (VStr "addr1") "addr1" bad_signature polaris
        1700000300000 genesis_store.
Proof.
  apply (submitStar_NaN (H := reference)). vm_compute. reflexivity.
Defined.

(** A message whose second field is not a number never expires: signed, it
    is accepted whatever the clock says. *)
Example submitStar_never_expires :
  snd (@submitStar reference (VStr "addr1") (VStr "addr1:soon:starRegistry")
         (VStr "addr1 signed addr1:soon:starRegistry") polaris
         9999999999000 9999999999000 genesis_store)
  = Resolved 1%nat.
Proof. vm_compute. reflexivity. Qed.

(** [initializeChain] on the store of the examples. *)
Lemma initializeChain_idempotent_witness :
  @initializeChain reference 1700000300000 genesis_store
  = (genesis_store, Resolved tt).
Proof.
  apply (initializeChain_idempotent (H := reference)). vm_compute. discriminate.
Defined.

(** The fresh store of the examples: [JSON.stringify] accepts its first
    block. *)
Lemma fresh_store_witness :
  height (@Blockchain_new reference 1700000000123) = 0
  ∧ length (chain (@Blockchain_new reference 1700000000123)) = 1%nat
  ∧ get_prop "height"
      (block_nth (blocks_of (@Blockchain_new reference 1700000000123)) 0)
    = VNum (Num 0)
  ∧ get_prop "previousBlockHash"
      (block_nth (blocks_of (@Blockchain_new reference 1700000000123)) 0)
    = get_prop "previousBlockHash"
        (spec_Block_new (VObj [("data", VStr "Genesis Block")]))
  ∧ @validateChain reference (@Blockchain_new reference 1700000000123)
    = Resolved Valid.
Proof.
  pose proof (fresh_store (H := reference) 1700000000123) as Hfresh.
  assert (Htext :
    JSON_stringify_object
      (@draft reference (VObj [("data", VStr "Genesis Block")])
         1700000000123 empty_store)
    = inr (JSON_text
             (@draft reference (VObj [("data", VStr "Genesis Block")])
                1700000000123 empty_store)))
    by (vm_compute; reflexivity).
  rewrite Htext in Hfresh. exact Hfresh.
Defined.

(** ** Stores built by appends, with the collaborators to run with *)

Lemma concat_fmap_nil {A B : Type} (f : A -> list B) (l : list A) :
  (∀ x : A, x ∈ l → f x = []) → concat (f <$> l) = [].
Proof.
  induction l as [|x l IH]; intros Hnil; simpl; [reflexivity|].
  rewrite (Hnil x) by apply list_elem_of_here. simpl.
  apply IH. intros y Hy. apply Hnil. now apply list_elem_of_further.
Qed.

Lemma JSON_stringify_VObj (props : list (string * value)) :
  JSON_stringify (VObj props)
  = match JSON_members props with
    | inl e => inl e
    | inr ms => inr (Some ("{" +:+ String.concat "," ms +:+ "}"))
    end.
Proof. reflexivity. Qed.

Lemma JSON_members_cons (k : string) (x : value) (ps : list (string * value)) :
  JSON_members ((k, x) :: ps)
  = match JSON_stringify x with
    | inl e => inl e
    | inr sx =>
        match JSON_members ps with
        | inl e => inl e
        | inr rest =>
            inr match sx with
                | Some text => (JSON_quote k +:+ ":" +:+ text) :: rest
                | None => rest
                end
        end
    end.
Proof. reflexivity. Qed.

(** An object is accepted when each of its properties is. *)
Lemma accepted_VObj (props : list (string * value)) :
  accepted (VObj props) ↔ Forall (fun kv => accepted (snd kv)) props.
Proof.
  unfold accepted. rewrite JSON_stringify_VObj.
  assert (Hmembers :
    (∃ ms, JSON_members props = inr ms)
    ↔ Forall (fun kv => ∃ text, JSON_stringify (snd kv) = inr text) props).
  { induction props as [|[k x] ps IH].
    - split; [constructor|intros _; eexists; reflexivity].
    - rewrite JSON_members_cons, Forall_cons, <- IH. simpl.
      destruct (JSON_stringify x) as [e|sx].
      + split; [intros [ms Hms]; discriminate|intros [[t Ht] _]; discriminate].
      + destruct (JSON_members ps) as [e|rest].
        * split; [intros [ms Hms]; discriminate|intros [_ [ms Hms]]; discriminate].
        * split; [intros _; split; eexists; reflexivity
                 |intros _; eexists; reflexivity]. }
  rewrite <- Hmembers. destruct (JSON_members props) as [e|ms].
  - split; [intros [t Ht]; discriminate|intros [ms Hms]; discriminate].
  - split; intros _; eexists; reflexivity.
Qed.

Lemma accepted_object (o : object) :
  accepted (VObj o) ↔ ∃ text : string, JSON_stringify_object o = inr text.
Proof.
  unfold accepted, JSON_stringify_object.
  destruct (JSON_stringify (VObj o)) as [e|text].
  - split; intros [t Ht]; discriminate.
  - split; intros _; eexists; reflexivity.
Qed.

Lemma Forall_set_prop (P : string * value -> Prop) (k : string) (v : value)
    (o : object) :
  Forall P o → P (k, v) → Forall P (set_prop k v o).
Proof.
  intros Ho Hv. induction Ho as [|[k' v'] o Hx Ho IH]; simpl.
  - now constructor.
  - destruct (String.eqb k k'); constructor; auto.
Qed.

(** The new block of the [Block] class of the specification is accepted
    with its height, its time and its link when its payload is, and the
    link is a string. *)
Lemma stamp_accepted (n : nat) (now : Z) (h : option value) (data : value) :
  accepted data →
  match h with
  | Some previousHash => ∃ s : string, previousHash = VStr s
  | None => True
  end →
  ∃ text : string,
    JSON_stringify_object (stamp n now h (spec_Block_new data)) = inr text.
Proof.
  intros Hdata Hlink. apply accepted_object, accepted_VObj.
  assert (Hstr : ∀ s : string, accepted (VStr s)) by (intros s; eexists; reflexivity).
  assert (Hnum : ∀ z : Z, accepted (VNum (Num z))) by (intros z; eexists; reflexivity).
  unfold stamp, spec_Block_new.
  destruct h as [previousHash|]; repeat apply Forall_set_prop; simpl;
    repeat constructor; auto.
  destruct Hlink as [s ->]. apply Hstr.
Qed.

Lemma sealed_check (n : nat) (now : Z) (h : option value) (data : value)
    (text : string) :
  JSON_stringify_object (stamp n now h (spec_Block_new data)) = inr text →
  spec_Block_validate (@seal reference (stamp n now h (spec_Block_new data)))
  = Resolved true.
Proof.
  intros Htext. unfold spec_Block_validate.
  assert (Hremove :
    remove_prop "hash" (@seal reference (stamp n now h (spec_Block_new data)))
    = stamp n now h (spec_Block_new data)).
  { unfold seal, stamp, spec_Block_new. destruct h; reflexivity. }
  rewrite Hremove, Htext. unfold seal.
  rewrite get_set_prop_eq, (JSON_text_eq _ _ Htext).
  change (@SHA256 reference) with Digest.sha256.
  unfold strict_eq. now rewrite String.eqb_refl.
Qed.

Lemma sound_valid (self : Blockchain) :
  sound self → @validateChain reference self = Resolved Valid.
Proof.
  intros [Hc Hcheck].
  pose proof (chained_refs _ Hc) as Hwf.
  assert (Hnth : ∀ i : nat, (i < length (chain self))%nat →
            blocks_of self !! i = Some (block_nth (blocks_of self) i)).
  { intros i Hi. apply block_nth_lookup. now rewrite length_blocks_of. }
  unfold validateChain, validateChain_with.
  rewrite (validateChain_loop_spec _ (fun _ => true));
    [|assumption|lia|intros j Hj; apply (Hcheck j), Hnth; lia].
  rewrite concat_fmap_nil; [reflexivity|].
  intros i Hi. apply elem_of_seq in Hi. unfold errors_at.
  destruct (chained_hash _ Hc i _ (Hnth i ltac:(lia))) as [h Hh].
  rewrite <- (chained_links _ Hc i _ _ (Hnth i ltac:(lia))
                (Hnth (i + 1)%nat ltac:(lia))).
  rewrite Hh. simpl. now rewrite String.eqb_refl.
Qed.

(** The link of a new block on a chained store is a string, or none. *)
Lemma chained_previous_hash (self : Blockchain) :
  chained self →
  match previous_hash self with
  | Some previousHash => ∃ s : string, previousHash = VStr s
  | None => True
  end.
Proof.
  intros Hc. destruct (chain self) as [|b l] eqn:Hchain.
  - unfold previous_hash. now rewrite Hchain.
  - assert (Hlen : (0 < length (chain self))%nat) by (rewrite Hchain; simpl; lia).
    assert (Htip : blocks_of self !! (length (chain self) - 1)%nat
                   = Some (block_nth (blocks_of self) (length (chain self) - 1)))
      by (apply block_nth_lookup; rewrite length_blocks_of; lia).
    rewrite (previous_hash_last self _ Htip Hlen).
    destruct (chained_hash _ Hc _ _ Htip) as [h Hh]. now exists h.
Qed.

Lemma draft_accepted (data : value) (now : Z) (self : Blockchain) :
  chained self → accepted data →
  ∃ text : string,
    JSON_stringify_object (@draft reference data now self) = inr text.
Proof.
  intros Hc Hdata. apply stamp_accepted; [assumption|].
  now apply chained_previous_hash.
Qed.

Lemma extended_sound (data : value) (now : Z) (text : string)
    (self : Blockchain) :
  sound self →
  JSON_stringify_object (@draft reference data now self) = inr text →
  sound (@extended reference data now self).
Proof.
  intros [Hc Hcheck] Htext. split; [now apply extended_chained|].
  intros i o Ho.
  rewrite blocks_of_extended in Ho by apply (chained_refs _ Hc).
  apply lookup_app_Some in Ho as [Ho|[_ Ho]]; [eauto|].
  apply list_lookup_singleton_Some in Ho as [_ <-].
  exact (sealed_check _ _ _ _ _ Htext).
Qed.

Lemma orphaned_sound (data : value) (now : Z) (self : Blockchain) :
  sound self → sound (@orphaned reference data now self).
Proof.
  intros [Hc Hcheck]. split; [now apply orphaned_chained|].
  intros i o Ho.
  rewrite blocks_of_orphaned in Ho by apply (chained_refs _ Hc). eauto.
Qed.

(** Whatever is appended, the store stays sound. *)
Lemma append_keeps_sound (data : value) (now : Z) (self : Blockchain) :
  sound self → sound (fst (@append reference data now self)).
Proof.
  intros Hsound. pose proof (chained_refs _ (sound_chained _ Hsound)) as Hwf.
  rewrite append_cases by assumption.
  destruct (JSON_stringify_object _) as [e|text] eqn:Htext; simpl.
  - now apply orphaned_sound.
  - now apply (extended_sound data now text).
Qed.

(** The append of an accepted payload on a sound store succeeds. *)
Lemma append_sound (data : value) (now : Z) (self : Blockchain) :
  sound self → accepted data →
  @append reference data now self
  = (@extended reference data now self, Resolved (length (objects self))).
Proof.
  intros Hsound Hdata.
  pose proof (sound_chained _ Hsound) as Hc.
  destruct (draft_accepted data now self Hc Hdata) as [text Htext].
  rewrite (append_run data now text) by (auto using chained_refs).
  now rewrite (sound_valid _ (extended_sound data now text self Hsound Htext)).
Qed.

Lemma empty_store_sound : sound empty_store.
Proof.
  split; [apply empty_store_chained|].
  intros i o Ho. apply lookup_lt_Some in Ho.
  rewrite length_blocks_of in Ho. simpl in Ho. lia.
Qed.

Lemma Blockchain_new_sound (now : Z) : sound (@Blockchain_new reference now).
Proof.
  rewrite Blockchain_new_append. apply append_keeps_sound, empty_store_sound.
Qed.

Lemma appends_sound (inputs : list (value * Z)) (self : Blockchain) :
  sound self →
  Forall (fun input : value * Z => accepted (fst input)) inputs →
  sound (fst (@appends reference inputs self))
  ∧ Forall succeeded (snd (@appends reference inputs self)).
Proof.
  revert self. induction inputs as [|[data now] inputs IH];
    intros self Hsound Hinputs; simpl.
  - split; [assumption|constructor].
  - apply Forall_cons in Hinputs as [Hdata Hinputs]. simpl in Hdata.
    pose proof (append_keeps_sound data now self Hsound) as Hnext.
    rewrite (append_sound data now self Hsound Hdata) in *. simpl in *.
    destruct (IH _ Hnext Hinputs) as [Hlast Hall].
    destruct (@appends reference inputs _) as [self2 results]. simpl in *.
    split; [assumption|]. constructor; [exact I|assumption].
Qed.

(** With SHA-256 and the [Block] class as the specification words it, every
    append of a payload that [JSON.stringify] accepts succeeds on a fresh
    store, whatever the clock, and the chain they build is valid. *)
Theorem appends_succeed (now0 : Z) (inputs : list (value * Z)) :
  Forall (fun input : value * Z => accepted (fst input)) inputs →
  Forall succeeded (snd (@appends reference inputs (@Blockchain_new reference now0)))
  ∧ @validateChain reference
      (fst (@appends reference inputs (@Blockchain_new reference now0)))
    = Resolved Valid.
Proof.
  intros Hinputs.
  destruct (appends_sound inputs _ (Blockchain_new_sound now0) Hinputs)
    as [Hsound Hall].
  split; [assumption|now apply sound_valid].
Qed.

Section Clock.
Context `{Collaborators}.

(** The clock of lines 65 and 129: the decimal string of the milliseconds
    without its last three characters reads as the whole seconds. *)
Theorem clock_in_seconds (now : Z) :
  1000 <= now →
  slice_0_m3 (Z_toString now) = Z_toString (now / 1000)
  ∧ currentTime now = Num (now / 1000).
Proof.
  intros Hnow. split; [now apply slice_toString_seconds|].
  now apply currentTime_seconds.
Qed.

(** A star submitted with a challenge that has not expired and a signature
    that verifies is appended: [submitStar] settles as the append of the
    block made of the owner and the star does. *)
Theorem submitStar_accepted (address : value) (message : string)
    (signature star : value) (now now_add : Z) (self : Blockchain) :
  expired message now = false →
  bitcoinMessage_verify message address signature = inr true →
  submitStar address (VStr message) signature star now now_add self
  = append (VObj [("owner", address); ("star", star)]) now_add self.
Proof.
  intros Hfresh Hverify. rewrite submitStar_run, Hfresh.
  unfold verified_submit. now rewrite Hverify.
Qed.

End Clock.

Lemma clock_in_seconds_witness :
  slice_0_m3 (Z_toString 1700000000123) = Z_toString (1700000000123 / 1000)
  ∧ currentTime 1700000000123 = Num (1700000000123 / 1000).
Proof. apply clock_in_seconds. lia. Defined.

(** The challenge of addr1, signed, submitted 299 seconds after it was
    issued on a fresh store: the block is appended at height 1 and links to
    the first block. *)
Lemma submitStar_accepted_witness :
  @submitStar reference (VStr "addr1") (VStr challenge) good_signature polaris
    1700000299999 1700000299999 genesis_store
  = @append reference (star_of "addr1" polaris) 1700000299999 genesis_store.
Proof.
  apply (submitStar_accepted (H := reference)); vm_compute; reflexivity.
Defined.

Example submitStar_end_to_end :
  get_prop "height"
    (block_nth (blocks_of (fst (@append reference (star_of "addr1" polaris)
                                  1700000299999 genesis_store))) 1)
  = VNum (Num 1)
  ∧ get_prop "previousBlockHash"
      (block_nth (blocks_of (fst (@append reference (star_of "addr1" polaris)
                                    1700000299999 genesis_store))) 1)
    = get_prop "hash" (block_nth (blocks_of genesis_store) 0).
Proof. vm_compute. split; reflexivity. Qed.


(** ** What [_addBlock] does to any store *)

Section AddBlockEffects.
Context `{Collaborators}.

(** The promise of [validateChain] is never rejected: nothing in its body
    calls [reject]. *)
Lemma validateChain_with_not_rejected (validate : Block -> outcome bool)
    (self : Blockchain) (e : error) :
  validateChain_with validate self ≠ Rejected e.
Proof.
  unfold validateChain_with.
  destruct (for_loop 0 _ _ _) as [log| |]; simpl; try discriminate.
  destruct (0 <? length log)%nat; discriminate.
Qed.

(** [_addBlock] writes to the block object it was given and to no other:
    no other block object changes, none is added or removed, and every
    reference in the chain still stands for an object.  When
    [JSON.stringify] gives the text of the block, the chain is extended by
    that one reference and the height that [getChainHeight] resolves with
    is the length of the chain minus one, however the promise settles; when
    it throws, the chain and the height are as they were and the promise
    is rejected with what was thrown. *)
Theorem addBlock_frame (block : loc) (now : Z) (o : Block)
    (self self' : Blockchain) (result : outcome loc) :
  well_formed self →
  objects self !! block = Some o →
  _addBlock block now self = (self', result) →
  length (objects self') = length (objects self)
  ∧ (∀ other : loc, other ≠ block → objects self' !! other = objects self !! other)
  ∧ well_formed self'
  ∧ match JSON_stringify_object
            (stamp (length (chain self)) now (previous_hash self) o) with
    | inr _ =>
        chain self' = chain self ++ [block]
        ∧ getChainHeight self' = Resolved (Z.of_nat (length (chain self')) - 1)
    | inl e =>
        chain self' = chain self
        ∧ getChainHeight self' = getChainHeight self
        ∧ result = Rejected e
    end.
Proof.
  intros Hwf Ho Hrun.
  assert (Hlt : (block < length (objects self))%nat)
    by (eapply lookup_lt_Some; eauto).
  rewrite (_addBlock_cases block now o) in Hrun by assumption.
  destruct (JSON_stringify_object _) as [e|text];
    inversion Hrun; subst self' result; clear Hrun;
    unfold appended, refused, getChainHeight; simpl;
    (split; [apply length_insert|]);
    (split; [intros other Hother; now apply list_lookup_insert_ne|]).
  - split; [|repeat split].
    intros b Hb. simpl in *. rewrite length_insert. now apply Hwf.
  - split.
    + intros b Hb. simpl in *. rewrite length_insert.
      apply elem_of_app in Hb as [Hb|Hb]; [now apply Hwf|].
      apply list_elem_of_singleton in Hb. now subst b.
    + split; [reflexivity|]. rewrite length_app. simpl. f_equal. lia.
Qed.

(** The promise of [_addBlock] settles in one of four ways only.  When
    [JSON.stringify] throws on the block, it is rejected with what was
    thrown.  Otherwise it is resolved with the block it was given when the
    validation of the extended chain says valid, rejected with "Blockchain
    is not valid!" when it reports errors, and never settled when the
    validation never settles. *)
Theorem addBlock_outcome (block : loc) (now : Z) (o : Block)
    (self self' : Blockchain) (result : outcome loc) :
  well_formed self →
  objects self !! block = Some o →
  _addBlock block now self = (self', result) →
  match JSON_stringify_object
          (stamp (length (chain self)) now (previous_hash self) o) with
  | inr _ =>
      (result = Resolved block ∧ validateChain self' = Resolved Valid)
      ∨ (result = Rejected ChainIntegrityError
         ∧ ∃ (n : nat) (log : list nat),
             validateChain self' = Resolved (Invalid n log))
      ∨ (result = Pending ∧ validateChain self' = Pending)
  | inl e => result = Rejected e
  end.
Proof.
  intros Hwf Ho Hrun.
  rewrite (_addBlock_cases block now o) in Hrun by assumption.
  destruct (JSON_stringify_object _) as [e|text];
    inversion Hrun; subst self' result; clear Hrun; [reflexivity|].
  destruct (validateChain (appended block now o self)) as [[|n log]|e|] eqn:Hv;
    simpl.
  - now left.
  - right. left. split; [reflexivity|]. now exists n, log.
  - exfalso. exact (validateChain_with_not_rejected _ _ _ Hv).
  - right. right. now split.
Qed.

(** [_addBlock] does not look whether the block is in the chain already.
    Given the block at index [i] again, and [JSON.stringify] accepting it,
    it writes the new height on that very object: the chain then holds the
    same block at index [i] and at its end, and the block at index [i]
    shows the height of the end. *)
Theorem addBlock_again (block : loc) (i : nat) (now : Z) (o : Block)
    (text : string) (self self' : Blockchain) (result : outcome loc) :
  well_formed self →
  chain self !! i = Some block →
  objects self !! block = Some o →
  JSON_stringify_object (stamp (length (chain self)) now (previous_hash self) o)
  = inr text →
  _addBlock block now self = (self', result) →
  chain self' !! i = Some block
  ∧ chain self' !! length (chain self) = Some block
  ∧ (i < length (chain self))%nat
  ∧ get_prop "height" (block_nth (blocks_of self') i)
    = VNum (Num (Z.of_nat (length (chain self))))
  ∧ get_prop "height" (block_nth (blocks_of self') (length (chain self)))
    = VNum (Num (Z.of_nat (length (chain self)))).
Proof.
  intros Hwf Hi Ho Htext Hrun.
  assert (Hlt : (block < length (objects self))%nat)
    by (eapply lookup_lt_Some; eauto).
  rewrite (_addBlock_run block now o text) in Hrun by assumption.
  inversion Hrun; subst self' result. clear Hrun.
  pose proof (lookup_lt_Some _ _ _ Hi) as Hilt.
  assert (H1 : chain (appended block now o self) !! i = Some block).
  { simpl. now rewrite lookup_app_l. }
  assert (H2 : chain (appended block now o self) !! length (chain self)
               = Some block).
  { simpl. rewrite lookup_app_r by lia. now rewrite Nat.sub_diag. }
  assert (Hblock : ∀ j : nat,
            chain (appended block now o self) !! j = Some block →
            get_prop "height" (block_nth (blocks_of (appended block now o self)) j)
            = VNum (Num (Z.of_nat (length (chain self))))).
  { intros j Hj. unfold block_nth, blocks_of.
    erewrite nth_lookup_Some
      by (rewrite list_lookup_fmap, Hj; simpl; reflexivity).
    simpl. rewrite list_lookup_insert_eq by assumption. simpl.
    apply get_height_sealed. }
  repeat split; auto.
Qed.

End AddBlockEffects.

(** ** What [validateChain] reports *)

(** A chain of one block, or of none, is reported valid whatever its
    block holds and whatever its self-check would say: the loop never
    runs. *)
Theorem validateChain_short (validate : Block -> outcome bool)
    (self : Blockchain) :
  (length (chain self) <= 1)%nat →
  validateChain_with validate self = Resolved Valid.
Proof.
  intros Hlen. unfold validateChain_with.
  replace (length (chain self) - 1)%nat with 0%nat by lia. reflexivity.
Qed.

Lemma validateChain_step_shape (validate : Block -> outcome bool)
    (self : Blockchain) (i : nat) (log log' : list nat) :
  validateChain_step validate self i log = Return log' →
  ∃ extra : list nat, log' = log ++ extra ∧ extra `sublist_of` [i; i].
Proof.
  unfold validateChain_step.
  destruct (block_at self i) as [block| |]; simpl; try discriminate.
  destruct (validate block) as [ok| |]; simpl; try discriminate.
  destruct (block_at self (i + 1)) as [next| |]; simpl; try discriminate.
  intros Hret. inversion Hret; subst log'. clear Hret.
  destruct ok; destruct (strict_eq _ _); simpl.
  - exists []. rewrite app_nil_r. split; [reflexivity|apply sublist_nil_l].
  - exists [i]. split; [reflexivity|]. apply sublist_cons, sublist_skip, sublist_nil_l.
  - exists [i]. split; [reflexivity|]. apply sublist_cons, sublist_skip, sublist_nil_l.
  - exists [i; i]. rewrite <- app_assoc. split; reflexivity.
Qed.

Lemma validateChain_loop_shape (validate : Block -> outcome bool)
    (self : Blockchain) (count i : nat) (log log' : list nat) :
  for_loop i count (validateChain_step validate self) log = Return log' →
  ∃ extra : list nat,
    log' = log ++ extra
    ∧ extra `sublist_of` concat ((fun j : nat => [j; j]) <$> seq i count).
Proof.
  revert i log. induction count as [|count IH]; intros i log Hrun.
  - simpl in Hrun. inversion Hrun. exists []. rewrite app_nil_r.
    split; [reflexivity|apply sublist_nil_l].
  - rewrite for_loop_S in Hrun.
    destruct (validateChain_step validate self i log) as [log1| |] eqn:Hstep;
      simpl in Hrun; try discriminate.
    destruct (validateChain_step_shape _ _ _ _ _ Hstep) as (e1 & -> & Hsub1).
    destruct (IH _ _ Hrun) as (e2 & -> & Hsub2).
    exists (e1 ++ e2). rewrite <- app_assoc. split; [reflexivity|].
    simpl. change (i :: i :: ?l) with ([i; i] ++ l). now apply sublist_app.
Qed.

Lemma twice_each_bounds (n : nat) :
  length (twice_each n) = (2 * n)%nat
  ∧ Forall (fun i : nat => (i < n)%nat) (twice_each n).
Proof.
  unfold twice_each. induction n as [|n [IHlen IHall]]; [now split|].
  rewrite seq_S, fmap_app, concat_app, length_app. simpl. split; [lia|].
  apply Forall_app. split.
  - eapply Forall_impl; [exact IHall|]. simpl. intros; lia.
  - repeat constructor.
Qed.

(** When [validateChain] reports errors, the count it gives is the length
    of its list and is positive; the list is made of indices below
    [length - 1], the last block never among them, in increasing order,
    none more than twice: it is a sublist of 0, 0, 1, 1, ... *)
Theorem validateChain_report (validate : Block -> outcome bool)
    (self : Blockchain) (n : nat) (log : list nat) :
  validateChain_with validate self = Resolved (Invalid n log) →
  n = length log
  ∧ (0 < n <= 2 * (length (chain self) - 1))%nat
  ∧ Forall (fun i : nat => (i + 1 < length (chain self))%nat) log
  ∧ log `sublist_of` twice_each (length (chain self) - 1).
Proof.
  unfold validateChain_with. intros Hrun.
  destruct (for_loop 0 _ _ _) as [log'| |] eqn:Hloop; simpl in Hrun;
    try discriminate.
  destruct (validateChain_loop_shape _ _ _ _ _ _ Hloop) as (extra & -> & Hsub).
  simpl in *.
  destruct (0 <? length extra)%nat eqn:Hpos; inversion Hrun; subst n log.
  apply Nat.ltb_lt in Hpos.
  fold (twice_each (length (chain self) - 1)) in Hsub.
  destruct (twice_each_bounds (length (chain self) - 1)) as [Hlen Hall].
  pose proof (sublist_length _ _ Hsub) as Hle.
  repeat split; try lia; try assumption.
  apply Forall_forall. intros i Hi.
  rewrite Forall_forall in Hall.
  specialize (Hall i (elem_of_sublist _ _ _ Hi Hsub)). simpl in Hall. lia.
Qed.

Lemma errors_at_elem (ok : nat -> bool) (blocks : list Block) (i j : nat) :
  i ∈ errors_at ok blocks j ↔
  i = j ∧ (ok j = false
           ∨ strict_eq (get_prop "hash" (block_nth blocks j))
               (get_prop "previousBlockHash" (block_nth blocks (j + 1))) = false).
Proof.
  unfold errors_at.
  destruct (ok j); destruct (strict_eq _ _); simpl;
    rewrite ?elem_of_cons, ?elem_of_nil; intuition congruence.
Qed.

Lemma error_log_elem (ok : nat -> bool) (blocks : list Block) (i : nat) :
  i ∈ error_log ok blocks ↔
  (i + 1 < length blocks)%nat
  ∧ (ok i = false
     ∨ strict_eq (get_prop "hash" (block_nth blocks i))
         (get_prop "previousBlockHash" (block_nth blocks (i + 1))) = false).
Proof.
  unfold error_log. rewrite list_elem_of_In, in_concat. split.
  - intros (e & He & Hi). apply list_elem_of_In, list_elem_of_fmap in He.
    destruct He as (j & -> & Hj). apply elem_of_seq in Hj.
    apply list_elem_of_In, errors_at_elem in Hi. destruct Hi as [-> Hbad].
    split; [lia|assumption].
  - intros [Hlt Hbad]. exists (errors_at ok blocks i). split.
    + apply list_elem_of_In, list_elem_of_fmap. exists i. split; [reflexivity|].
      apply elem_of_seq. lia.
    + apply list_elem_of_In, errors_at_elem. now split.
Qed.

Lemma validateChain_with_run (validate : Block -> outcome bool)
    (ok : nat -> bool) (self : Blockchain) :
  well_formed self →
  (∀ i, (i + 1 < length (chain self))%nat →
        validate (block_nth (blocks_of self) i) = Resolved (ok i)) →
  validateChain_with validate self
  = Resolved (report_of (error_log ok (blocks_of self))).
Proof.
  intros Hwf Hok. unfold validateChain_with.
  rewrite (validateChain_loop_spec validate ok);
    [|assumption|lia|intros; apply Hok; lia].
  simpl. unfold error_log. rewrite length_blocks_of.
  change (exec_bind _ _ ?f ?m) with (mbind f m). simpl.
  now rewrite report_of_log.
Qed.

(** What the verdict of [validateChain] means, when the self-checks of the
    blocks before the last resolve.  It says valid exactly when each of
    those blocks passes its self-check and has the hash that the next
    block gives as its previous hash; and when it reports errors, an index
    is in the list exactly when its block fails the one or the other. *)
Theorem validateChain_verdict (validate : Block -> outcome bool)
    (ok : nat -> bool) (self : Blockchain) :
  well_formed self →
  (∀ i, (i + 1 < length (chain self))%nat →
        validate (block_nth (blocks_of self) i) = Resolved (ok i)) →
  (validateChain_with validate self = Resolved Valid ↔
   ∀ i, (i + 1 < length (chain self))%nat →
     ok i = true
     ∧ strict_eq (get_prop "hash" (block_nth (blocks_of self) i))
         (get_prop "previousBlockHash" (block_nth (blocks_of self) (i + 1)))
       = true)
  ∧ ∀ (n : nat) (log : list nat) (i : nat),
      validateChain_with validate self = Resolved (Invalid n log) →
      (i ∈ log ↔
       (i + 1 < length (chain self))%nat
       ∧ (ok i = false
          ∨ strict_eq (get_prop "hash" (block_nth (blocks_of self) i))
              (get_prop "previousBlockHash" (block_nth (blocks_of self) (i + 1)))
            = false)).
Proof.
  intros Hwf Hok. rewrite (validateChain_with_run validate ok) by assumption.
  pose proof (error_log_elem ok (blocks_of self)) as Helem.
  rewrite length_blocks_of in Helem.
  split.
  - split.
    + intros Hvalid i Hi.
      destruct (error_log ok (blocks_of self)) as [|x l] eqn:Hlog;
        [|discriminate].
      assert (Hnot : ¬ i ∈ []) by apply not_elem_of_nil.
      rewrite Helem in Hnot.
      destruct (ok i); destruct (strict_eq _ _); try tauto.
    + intros Hall.
      destruct (error_log ok (blocks_of self)) as [|x l] eqn:Hlog;
        [reflexivity|].
      exfalso. assert (Hx : x ∈ x :: l) by apply list_elem_of_here.
      apply Helem in Hx as [Hlt Hbad]. destruct (Hall x Hlt) as [H1 H2].
      destruct Hbad; congruence.
  - intros n log i Hinvalid.
    destruct (error_log ok (blocks_of self)) as [|x l] eqn:Hlog;
      [discriminate|].
    simpl in Hinvalid. inversion Hinvalid; subst. apply Helem.
Qed.

Lemma validateChain_step_rejects (validate : Block -> outcome bool)
    (self : Blockchain) (e : error) (i : nat) (log : list nat) :
  well_formed self →
  (i + 1 < length (chain self))%nat →
  validate (block_nth (blocks_of self) i) = Rejected e →
  validateChain_step validate self i log = Throw e.
Proof.
  intros Hwf Hi Hfail. unfold validateChain_step.
  rewrite (block_at_well_formed self i) by (auto; lia).
  simpl. now rewrite Hfail.
Qed.

Lemma validateChain_loop_failure (validate : Block -> outcome bool)
    (ok : nat -> bool) (self : Blockchain) (e : error)
    (n i count : nat) (log : list nat) :
  well_formed self →
  (i + n + 1 < length (chain self))%nat →
  validate (block_nth (blocks_of self) (i + n)) = Rejected e →
  (∀ k : nat, (i <= k < i + n)%nat →
     validate (block_nth (blocks_of self) k) = Resolved (ok k)) →
  (n < count)%nat →
  for_loop i count (validateChain_step validate self) log = Throw e.
Proof.
  intros Hwf. revert i count log.
  induction n as [|n IH]; intros i count log Hlt Hfail Hbefore Hcount;
    (destruct count as [|count]; [lia|]); rewrite for_loop_S.
  - rewrite Nat.add_0_r in Hfail.
    rewrite (validateChain_step_rejects validate self e) by (auto; lia).
    reflexivity.
  - rewrite (validateChain_step_spec validate ok);
      [|assumption|lia|apply Hbefore; lia].
    simpl. apply IH; try lia.
    + now replace (S i + n)%nat with (i + S n)%nat by lia.
    + intros k Hk. apply Hbefore. lia.
Qed.

(** When the self-check of a block before the last rejects, and those
    before it resolve, the promise of [validateChain] never settles: the
    body has no [try], the rejection escapes the async executor, and
    neither [resolve] nor [reject] is called. *)
Theorem validateChain_self_check_rejects (validate : Block -> outcome bool)
    (ok : nat -> bool) (self : Blockchain) (e : error) (j : nat) :
  well_formed self →
  (j + 1 < length (chain self))%nat →
  validate (block_nth (blocks_of self) j) = Rejected e →
  (∀ k : nat, (k < j)%nat →
     validate (block_nth (blocks_of self) k) = Resolved (ok k)) →
  validateChain_with validate self = Pending.
Proof.
  intros Hwf Hj Hfail Hbefore. unfold validateChain_with.
  rewrite (validateChain_loop_failure validate ok self e j 0 _ []);
    try assumption; try lia.
  - reflexivity.
  - intros k Hk. apply Hbefore. lia.
Qed.

(** ** The lookups *)

Lemma chain_filter_run (self : Blockchain) (test : Block -> bool)
    (refs : list loc) :
  (∀ p : loc, p ∈ refs → (p < length (objects self))%nat) →
  chain_filter self test refs
  = Return (List.filter (fun p : loc => test (default [] (objects self !! p))) refs).
Proof.
  induction refs as [|p refs IH]; intros Hrefs; simpl; [reflexivity|].
  destruct (lookup_lt_is_Some_2 (objects self) p) as [o Ho].
  { apply Hrefs, list_elem_of_here. }
  rewrite Ho, IH by (intros q Hq; apply Hrefs; now apply list_elem_of_further).
  simpl. now destruct (test o).
Qed.

Lemma head_filter_first {A : Type} (f : A -> bool) (l : list A) :
  match head (List.filter f l) with
  | Some x =>
      ∃ i : nat, l !! i = Some x ∧ f x = true
        ∧ ∀ (j : nat) (y : A), (j < i)%nat → l !! j = Some y → f y = false
  | None => ∀ (j : nat) (y : A), l !! j = Some y → f y = false
  end.
Proof.
  induction l as [|a l IH]; simpl.
  - intros j y Hj. rewrite lookup_nil in Hj. discriminate.
  - destruct (f a) eqn:Ha; simpl.
    + exists 0%nat. repeat split; auto. intros; lia.
    + destruct (head (List.filter f l)) as [x|].
      * destruct IH as (i & Hi & Hx & Hfirst). exists (S i).
        repeat split; auto.
        intros [|j] y Hj Hy; simpl in Hy; [congruence|].
        eapply Hfirst; eauto. lia.
      * intros [|j] y Hy; simpl in Hy; [congruence|]. eapply IH; eauto.
Qed.

Lemma block_nth_chain (self : Blockchain) (i : nat) (p : loc) :
  chain self !! i = Some p →
  block_nth (blocks_of self) i = default [] (objects self !! p).
Proof.
  intros Hp. unfold block_nth, blocks_of.
  apply nth_lookup_Some. now rewrite list_lookup_fmap, Hp.
Qed.

Lemma getBlockByHash_found (hash : value) (self : Blockchain) :
  well_formed self →
  ∃ found : option loc,
    getBlockByHash hash self = Resolved found
    ∧ match found with
      | Some block =>
          ∃ i : nat,
            chain self !! i = Some block
            ∧ strict_eq (get_prop "hash" (block_nth (blocks_of self) i)) hash
              = true
            ∧ ∀ j : nat, (j < i)%nat →
                strict_eq (get_prop "hash" (block_nth (blocks_of self) j)) hash
                = false
      | None =>
          ∀ i : nat, (i < length (chain self))%nat →
            strict_eq (get_prop "hash" (block_nth (blocks_of self) i)) hash
            = false
      end.
Proof.
  intros Hwf. unfold getBlockByHash.
  rewrite chain_filter_run by exact Hwf. simpl.
  eexists. split; [reflexivity|].
  pose proof (head_filter_first
    (fun p : loc => strict_eq (get_prop "hash" (default [] (objects self !! p))) hash)
    (chain self)) as Hhead.
  destruct (head (List.filter _ (chain self))) as [block|].
  - destruct Hhead as (i & Hi & Hmatch & Hfirst). exists i.
    rewrite (block_nth_chain _ _ _ Hi). repeat split; auto.
    intros j Hj.
    destruct (lookup_lt_is_Some_2 (chain self) j) as [q Hq].
    { apply lookup_lt_Some in Hi. lia. }
    rewrite (block_nth_chain _ _ _ Hq). eapply Hfirst; eauto.
  - intros i Hi. destruct (lookup_lt_is_Some_2 (chain self) i Hi) as [q Hq].
    rewrite (block_nth_chain _ _ _ Hq). eapply Hhead; eauto.
Qed.


(** [getBlockByHash] never fails: it resolves with the first block of the
    chain whose hash is strictly equal to the one asked for, and with null
    when no block of the chain has it. *)
Theorem getBlockByHash_first (hash : value) (self : Blockchain) :
  well_formed self →
  ∃ found : option loc,
    getBlockByHash hash self = Resolved found
    ∧ match found with
      | Some block =>
          ∃ i : nat,
            chain self !! i = Some block
            ∧ strict_eq (get_prop "hash" (block_nth (blocks_of self) i)) hash
              = true
            ∧ ∀ j : nat, (j < i)%nat →
                strict_eq (get_prop "hash" (block_nth (blocks_of self) j)) hash
                = false
      | None =>
          ∀ i : nat, (i < length (chain self))%nat →
            strict_eq (get_prop "hash" (block_nth (blocks_of self) i)) hash
            = false
      end.
Proof. apply getBlockByHash_found. Qed.

Lemma filter_seq_eq (z : Z) (n : nat) :
  List.filter (fun p : nat => Z.of_nat p =? z) (seq 0 n)
  = if (0 <=? z) && (z <? Z.of_nat n) then [Z.to_nat z] else [].
Proof.
  induction n as [|n IH].
  - change (Z.of_nat 0) with 0. simpl.
    destruct (Z.leb_spec 0 z); destruct (Z.ltb_spec z 0); simpl;
      try reflexivity; lia.
  - rewrite seq_S, List.filter_app, IH. simpl.
    destruct (Z.of_nat n =? z) eqn:En.
    + apply Z.eqb_eq in En. subst z.
      replace (0 <=? Z.of_nat n) with true by (symmetry; apply Z.leb_le; lia).
      replace (Z.of_nat n <? Z.of_nat n) with false
        by (symmetry; apply Z.ltb_ge; lia).
      replace (Z.of_nat n <? Z.of_nat (S n)) with true
        by (symmetry; apply Z.ltb_lt; lia).
      simpl. now rewrite Nat2Z.id.
    + apply Z.eqb_neq in En. rewrite app_nil_r.
      destruct (0 <=? z); simpl; [|reflexivity].
      destruct (Z.ltb_spec z (Z.of_nat n));
        destruct (Z.ltb_spec z (Z.of_nat (S n))); try reflexivity; lia.
Qed.

(** On a store in which every block was appended as it was made,
    [getBlockByHeight] resolves with the block at the index asked for when
    the height is a number that is an index of the chain, and with null
    otherwise: for a height beyond the chain, a negative one, and any
    height that is not a number, the string of a number included, since the
    comparison is strict. *)
Theorem getBlockByHeight_linear (h : value) (self : Blockchain) :
  linear self →
  getBlockByHeight h self
  = Resolved match h with
             | VNum (Num z) =>
                 if (0 <=? z) && (z <? Z.of_nat (length (chain self)))
                 then Some (Z.to_nat z) else None
             | _ => None
             end.
Proof.
  intros Hlin. pose proof (linear_well_formed _ Hlin) as Hwf.
  unfold getBlockByHeight. rewrite chain_filter_run by exact Hwf. simpl.
  do 2 f_equal.
  assert (Hlen : length (chain self) = length (objects self)).
  { rewrite (linear_chain _ Hlin). apply length_seq. }
  assert (Htest : ∀ p : nat, In p (chain self) →
    strict_eq (get_prop "height" (default [] (objects self !! p))) h
    = match h with VNum (Num z) => Z.of_nat p =? z | _ => false end).
  { intros p Hp. apply list_elem_of_In, Hwf in Hp.
    destruct (lookup_lt_is_Some_2 _ _ Hp) as [o Ho]. rewrite Ho. simpl.
    rewrite (linear_heights _ Hlin p o Ho).
    destruct h as [| |[|z]| | |]; reflexivity. }
  rewrite (List.filter_ext_in _ _ _ Htest).
  destruct h as [| |[|z]| | |];
    try (clear; induction (chain self); simpl; auto; fail).
  rewrite (linear_chain _ Hlin), length_seq, filter_seq_eq.
  now destruct ((0 <=? z) && (z <? Z.of_nat (length (objects self)))).
Qed.

Lemma registry_strict_eq_hash (self : Blockchain) (i : nat) :
  registry self → (i < length (chain self))%nat →
  strict_eq (get_prop "hash" (block_nth (blocks_of self) i))
    (get_prop "hash" (block_nth (blocks_of self) i)) = true.
Proof.
  intros [Hlin Hhash] Hi.
  assert (Hlen : length (chain self) = length (objects self)).
  { rewrite (linear_chain _ Hlin). apply length_seq. }
  rewrite (linear_blocks_of _ Hlin). unfold block_nth.
  destruct (lookup_lt_is_Some_2 (objects self) i ltac:(lia)) as [o Ho].
  rewrite (nth_lookup_Some _ _ _ _ Ho).
  destruct (Hhash i o Ho) as [h ->]. simpl. apply String.eqb_refl.
Qed.

(** On a store in which every block object is in the chain, as appended,
    looking up the hash of the block at index [i] finds a block: the first
    of the chain with that hash, at index [i] or before it. *)
Theorem getBlockByHash_stored (i : nat) (self : Blockchain) :
  registry self →
  (i < length (chain self))%nat →
  ∃ j : nat,
    (j <= i)%nat
    ∧ getBlockByHash (get_prop "hash" (block_nth (blocks_of self) i)) self
      = Resolved (Some j)
    ∧ strict_eq (get_prop "hash" (block_nth (blocks_of self) j))
        (get_prop "hash" (block_nth (blocks_of self) i)) = true.
Proof.
  intros Hreg Hi. pose proof (registry_linear _ Hreg) as Hlin.
  pose proof (registry_strict_eq_hash self i Hreg Hi) as Hsame.
  destruct (getBlockByHash_found
              (get_prop "hash" (block_nth (blocks_of self) i)) self
              (linear_well_formed _ Hlin)) as ([block|] & Hrun & Hfound).
  - destruct Hfound as (j & Hj & Hmatch & Hfirst).
    assert (Hjb : block = j).
    { rewrite (linear_chain _ Hlin) in Hj.
      apply lookup_seq in Hj. lia. }
    subst block. exists j. repeat split; auto.
    destruct (le_lt_dec j i) as [Hle|Hlt]; [assumption|].
    rewrite (Hfirst i Hlt) in Hsame. discriminate.
  - rewrite (Hfound i Hi) in Hsame. discriminate.
Qed.

(** ** The challenge *)

Lemma split_field (a s : string) :
  has_colon a = false →
  split ":" (a +:+ String ":" s) = a :: split ":" s.
Proof.
  induction a as [|c a IH]; intros Hcolon.
  - reflexivity.
  - simpl in Hcolon. apply orb_false_elim in Hcolon as [Hc Ha].
    rewrite string_app_cons. simpl. rewrite Hc, IH by assumption. reflexivity.
Qed.

Lemma split_no_colon (s : string) : has_colon s = false → split ":" s = [s].
Proof.
  induction s as [|c s IH]; intros Hcolon; [reflexivity|].
  simpl in Hcolon. apply orb_false_elim in Hcolon as [Hc Hs].
  simpl. now rewrite Hc, IH.
Qed.

Lemma all_decimal_no_colon (s : string) :
  all_decimal s = true → has_colon s = false.
Proof.
  induction s as [|c s IH]; intros Hall; [reflexivity|].
  rewrite all_decimal_cons in Hall. apply andb_prop in Hall as [Hc Hs].
  simpl. rewrite (IH Hs), orb_false_r.
  apply decimal_cases in Hc. simpl in Hc.
  destruct Hc as [<-|[<-|[<-|[<-|[<-|[<-|[<-|[<-|[<-|[<-|[]]]]]]]]]]];
    reflexivity.
Qed.

(** The challenge that [requestMessageOwnershipVerification] issues for an
    address without a colon carries the second it was issued at as its
    second field: [submitStar] reads that second back, and finds the
    challenge expired exactly from the 300th second after it. *)
Theorem challenge_round_trip (address : value) (now now' : Z) :
  has_colon (ToString address) = false →
  1000 <= now →
  1000 <= now' →
  ∃ message : string,
    requestMessageOwnershipVerification address now = Resolved message
    ∧ split ":" message
      = [ToString address; Z_toString (now / 1000); "starRegistry"]
    ∧ messageTime message = Num (now / 1000)
    ∧ expired message now' = (300 <=? now' / 1000 - now / 1000).
Proof.
  intros Hcolon Hnow Hnow'. eexists. split; [reflexivity|].
  rewrite slice_toString_seconds by assumption.
  assert (Hdiv : 0 <= now / 1000) by (apply Z.div_pos; lia).
  assert (Hseconds : has_colon (Z_toString (now / 1000)) = false).
  { apply all_decimal_no_colon. unfold Z_toString.
    replace (now / 1000 <? 0) with false by (symmetry; apply Z.ltb_ge; lia).
    apply (read_digits_digits (now / 1000) Hdiv). }
  assert (Hsplit :
    split ":" (ToString address +:+ ":" +:+ Z_toString (now / 1000)
               +:+ ":starRegistry")
    = [ToString address; Z_toString (now / 1000); "starRegistry"]).
  { rewrite string_app_cons, string_app_nil, split_field by assumption.
    rewrite split_field by assumption. reflexivity. }
  assert (Htime :
    messageTime (ToString address +:+ ":" +:+ Z_toString (now / 1000)
                 +:+ ":starRegistry") = Num (now / 1000)).
  { unfold messageTime. rewrite Hsplit. unfold index, parseInt. simpl.
    now apply parseInt_toString. }
  split; [exact Hsplit|]. split; [exact Htime|].
  unfold expired, currentTime. rewrite Htime, currentTime_seconds by assumption.
  simpl. apply Z.geb_leb.
Qed.

(** ** The calls of a client *)

Section PublicCalls.
Context `{Collaborators}.




Lemma initializeChain_store (now : Z) (self : Blockchain) :
  fst (initializeChain now self)
  = if height self =? -1
    then fst (append (VObj [("data", VStr "Genesis Block")]) now self)
    else self.
Proof.
  unfold initializeChain, async, append.
  destruct (height self =? -1); [|reflexivity].
  unfold mbind, M_bind, await_call. simpl.
  match goal with |- context [_addBlock ?b ?t ?s] =>
    destruct (_addBlock b t s) as [self' [block|e|]] end; reflexivity.
Qed.

Lemma submitStar_store (address message signature star : value)
    (now now_add : Z) (self : Blockchain) :
  fst (submitStar address message signature star now now_add self) = self
  ∨ fst (submitStar address message signature star now now_add self)
    = fst (append (VObj [("owner", address); ("star", star)]) now_add self).
Proof.
  destruct message; try (left; reflexivity).
  rewrite submitStar_run. destruct (expired s now); [now left|].
  unfold verified_submit.
  destruct (bitcoinMessage_verify s address signature) as [e|[|]]; auto.
Qed.

(** A call of a client leaves the store as it was, or as an append leaves
    it. *)
Lemma call_run_store (c : call) (self : Blockchain) :
  call_run c self = self
  ∨ ∃ (data : value) (now : Z), call_run c self = fst (append data now self).
Proof.
  destruct c as [address message signature star now now_add|now]; simpl.
  - destruct (submitStar_store address message signature star now now_add self)
      as [->| ->]; eauto.
  - rewrite initializeChain_store. destruct (height self =? -1); eauto.
Qed.


Lemma append_prefix (data : value) (now : Z) (self : Blockchain) :
  well_formed self →
  objects self `prefix_of` objects (fst (append data now self))
  ∧ chain self `prefix_of` chain (fst (append data now self)).
Proof.
  intros Hwf. destruct (append_store data now self Hwf) as [-> | ->]; simpl;
    split; try reflexivity; now apply prefix_app_r.
Qed.

Lemma calls_run_length (calls : list call) (self : Blockchain) :
  well_formed self →
  well_formed (calls_run calls self)
  ∧ objects self `prefix_of` objects (calls_run calls self)
  ∧ chain self `prefix_of` chain (calls_run calls self).
Proof.
  revert self. induction calls as [|c calls IH]; intros self Hwf; simpl.
  - repeat split; [assumption|reflexivity|reflexivity].
  - destruct (call_run_store c self) as [->|(data & now & ->)]; [auto|].
    destruct (IH _ (append_well_formed data now self Hwf)) as (Hwf' & Ho & Hc).
    destruct (append_prefix data now self Hwf) as [Hobjects Hchain].
    split; [assumption|]. split; etransitivity; eauto.
Qed.


(** No call of a client changes or removes a block that is stored, or
    reorders the chain: the block objects and the chain before the calls
    are a prefix of those after them. *)
Theorem calls_append_only (calls : list call) (self : Blockchain) :
  well_formed self →
  objects self `prefix_of` objects (calls_run calls self)
  ∧ chain self `prefix_of` chain (calls_run calls self).
Proof. intros Hwf. now destruct (calls_run_length calls self Hwf). Qed.

End PublicCalls.

(** ** The stars of an address, and the last block *)

Section Stars.
Context `{Collaborators}.

(** After an append on a chain that is not empty, of a block that
    [JSON.stringify] accepts, the stars of an address are those of before
    followed by the new block's, if its decoded body is owned by the
    address: a star submitted is found by the next
    [getStarsByWalletAddress], after the stars that were there. *)
Theorem getStars_after_append (address data : value) (now : Z)
    (text : string) (self : Blockchain) (decoded : list value)
    (blockData : value) :
  well_formed self →
  (1 <= length (chain self))%nat →
  JSON_stringify_object (draft data now self) = inr text →
  Forall2 (fun block d => Block_getBData block = Resolved d ∧ has_properties d)
          (drop 1 (blocks_of self)) decoded →
  Block_getBData
    (block_nth (blocks_of (fst (append data now self))) (length (chain self)))
  = Resolved blockData →
  has_properties blockData →
  getStarsByWalletAddress address self = Resolved (stars_of address decoded)
  ∧ getStarsByWalletAddress address (fst (append data now self))
    = Resolved (stars_of address decoded ++ stars_of address [blockData]).
Proof.
  intros Hwf Hlen Htext Hdecoded Hnew Hprops.
  pose proof (Forall2_length _ _ _ Hdecoded) as Hcount.
  rewrite length_drop, length_blocks_of in Hcount.
  split.
  - unfold getStarsByWalletAddress. rewrite Hcount.
    now rewrite (stars_loop address self decoded 1 []) by assumption.
  - rewrite (append_run data now text) in * by assumption. simpl fst in *.
    pose proof (blocks_of_extended data now self Hwf) as Hblocks.
    unfold block_nth in Hnew. rewrite Hblocks in Hnew.
    replace (nth (length (chain self)) _ _)
      with (seal (draft data now self)) in Hnew
      by (rewrite <- (length_blocks_of self); symmetry; apply nth_middle).
    assert (Hdecoded' :
      Forall2 (fun block d => Block_getBData block = Resolved d ∧ has_properties d)
              (drop 1 (blocks_of (extended data now self)))
              (decoded ++ [blockData])).
    { rewrite Hblocks, drop_app_le by (rewrite length_blocks_of; lia).
      apply Forall2_app; [assumption|].
      constructor; [split; assumption|constructor]. }
    unfold getStarsByWalletAddress.
    replace (length (chain (extended data now self)) - 1)%nat
      with (length (decoded ++ [blockData]))
      by (simpl; rewrite !length_app; simpl; lia).
    rewrite (stars_loop address _ (decoded ++ [blockData]) 1 [])
      by (auto using extended_well_formed).
    simpl. unfold stars_of. now rewrite List.filter_app.
Qed.

Lemma stars_step_shape (address : value) (self : Blockchain) (i : nat)
    (stars stars' : list value) :
  stars_step address self i stars = Return stars' →
  stars' = stars
  ∨ ∃ (block : Block) (blockData : value),
      block_at self i = Return block
      ∧ Block_getBData block = Resolved blockData
      ∧ strict_eq (owner_of blockData) address = true
      ∧ stars' = stars ++ [blockData].
Proof.
  unfold stars_step.
  destruct (block_at self i) as [block| |]; simpl; try discriminate.
  destruct (Block_getBData block) as [blockData| |] eqn:Hdata; simpl;
    try discriminate.
  destruct (property blockData "owner") as [owner| |] eqn:Howner; simpl;
    try discriminate.
  assert (Hsame : owner = owner_of blockData).
  { destruct blockData; simpl in *; congruence. }
  subst owner.
  destruct (strict_eq (owner_of blockData) address) eqn:Hmatch; simpl;
    intros Hrun; inversion Hrun; subst; [right|now left].
  exists block, blockData. auto.
Qed.

Lemma stars_loop_shape (address : value) (self : Blockchain) (count i : nat)
    (stars stars' : list value) :
  for_loop i count (stars_step address self) stars = Return stars' →
  ∃ found : list value,
    stars' = stars ++ found
    ∧ (length found <= count)%nat
    ∧ Forall (fun blockData =>
                strict_eq (owner_of blockData) address = true
                ∧ ∃ (j : nat) (block : Block),
                    (i <= j < i + count)%nat
                    ∧ block_at self j = Return block
                    ∧ Block_getBData block = Resolved blockData) found.
Proof.
  revert i stars. induction count as [|count IH]; intros i stars Hrun.
  - inversion Hrun; subst. exists []. rewrite app_nil_r.
    repeat split; [simpl; lia|constructor].
  - rewrite for_loop_S in Hrun.
    destruct (stars_step address self i stars) as [stars1| |] eqn:Hstep;
      simpl in Hrun; try discriminate.
    destruct (IH _ _ Hrun) as (found & -> & Hlen & Hall).
    assert (Hall' : Forall (fun blockData =>
                strict_eq (owner_of blockData) address = true
                ∧ ∃ (j : nat) (block : Block),
                    (i <= j < i + S count)%nat
                    ∧ block_at self j = Return block
                    ∧ Block_getBData block = Resolved blockData) found).
    { eapply Forall_impl; [exact Hall|]. simpl.
      intros d (Hd & j & block & Hj & Hblock & Hdata).
      split; [assumption|]. exists j, block. repeat split; auto; lia. }
    apply stars_step_shape in Hstep
      as [->|(block & blockData & Hblock & Hdata & Hmatch & ->)].
    + exists found. repeat split; auto.
    + exists (blockData :: found). rewrite <- app_assoc. simpl.
      repeat split; [lia|]. constructor; [|assumption].
      split; [assumption|]. exists i, block. repeat split; auto; lia.
Qed.

(** The promise of [getStarsByWalletAddress] is never rejected, whatever
    the store holds; and when it is resolved, every element of the result
    is the decoded body of a block of the chain after the first, and its
    owner is strictly equal to the address asked for. *)
Theorem getStars_sound (address : value) (self : Blockchain) :
  (∀ e : error, getStarsByWalletAddress address self ≠ Rejected e)
  ∧ ∀ stars : list value,
      getStarsByWalletAddress address self = Resolved stars →
      (length stars <= length (chain self) - 1)%nat
      ∧ Forall (fun blockData =>
                  strict_eq (owner_of blockData) address = true
                  ∧ ∃ (j : nat) (block : Block),
                      (1 <= j < length (chain self))%nat
                      ∧ block_at self j = Return block
                      ∧ Block_getBData block = Resolved blockData) stars.
Proof.
  unfold getStarsByWalletAddress.
  destruct (for_loop 1 (length (chain self) - 1) (stars_step address self) [])
    as [found| |] eqn:Hloop; simpl; (split; [discriminate|]);
    intros stars Hrun; inversion Hrun; subst.
  destruct (stars_loop_shape _ _ _ _ _ _ Hloop) as (found & -> & Hlen & Hall).
  simpl. split; [assumption|].
  eapply Forall_impl; [exact Hall|]. simpl.
  intros d (Hd & j & block & Hj & Hblock & Hdata).
  split; [assumption|]. exists j, block. repeat split; auto; lia.
Qed.

End Stars.

Lemma tamper_objects (tip : loc) (k : string) (v : value) (self : Blockchain) :
  chain (tamper tip k v self) = chain self
  ∧ (∀ b : loc, b ≠ tip → objects (tamper tip k v self) !! b = objects self !! b)
  ∧ objects (tamper tip k v self) !! tip
    = set_prop k v <$> objects self !! tip.
Proof.
  unfold tamper, assign.
  destruct (objects self !! tip) as [o|] eqn:Ho; simpl.
  - repeat split.
    + intros b Hb. now apply list_lookup_insert_ne.
    + apply list_lookup_insert_eq. eapply lookup_lt_Some; eauto.
  - repeat split. assumption.
Qed.

Lemma validateChain_step_tamper (validate : Block -> outcome bool)
    (front : list loc) (tip : loc) (k : string) (v : value)
    (self : Blockchain) (i : nat) (log : list nat) :
  chain self = front ++ [tip] →
  tip ∉ front →
  k ≠ "previousBlockHash" →
  (i < length front)%nat →
  validateChain_step validate (tamper tip k v self) i log
  = validateChain_step validate self i log.
Proof.
  intros Hchain Hfresh Hk Hi.
  destruct (tamper_objects tip k v self) as (Hc & Hother & Htip).
  assert (Hfront : ∀ j : nat, (j < length front)%nat →
            block_at (tamper tip k v self) j = block_at self j).
  { intros j Hj. unfold block_at. rewrite Hc, Hchain, lookup_app_l by assumption.
    destruct (front !! j) as [b|] eqn:Hb; [|reflexivity].
    rewrite Hother; [reflexivity|].
    intros ->. apply Hfresh. eapply list_elem_of_lookup_2; eauto. }
  unfold validateChain_step. rewrite (Hfront i) by assumption.
  destruct (block_at self i) as [block| |]; simpl; try reflexivity.
  destruct (validate block) as [ok| |]; simpl; try reflexivity.
  destruct (decide (i + 1 < length front)%nat) as [Hnext|Hnext].
  - now rewrite (Hfront (i + 1)%nat) by assumption.
  - assert (Hlast : (i + 1)%nat = length front) by lia.
    unfold block_at. rewrite Hc, Hchain, Hlast.
    rewrite lookup_app_r by lia. rewrite Nat.sub_diag. simpl.
    rewrite Htip. destruct (objects self !! tip) as [o|]; simpl; [|reflexivity].
    now rewrite get_set_prop_ne by (intros E; apply Hk; now symmetry).
Qed.

(** [validateChain] never looks at the last block of the chain beyond its
    previous hash: whatever else a client writes on it, its body or its
    hash, the report is the one of before. *)
Theorem validateChain_last_unchecked (validate : Block -> outcome bool)
    (front : list loc) (tip : loc) (k : string) (v : value)
    (self : Blockchain) :
  chain self = front ++ [tip] →
  tip ∉ front →
  k ≠ "previousBlockHash" →
  validateChain_with validate (tamper tip k v self)
  = validateChain_with validate self.
Proof.
  intros Hchain Hfresh Hk. unfold validateChain_with.
  destruct (tamper_objects tip k v self) as (Hc & _ & _). rewrite Hc.
  assert (Hloop : ∀ (count i : nat) (log : list nat),
            (i + count <= length front)%nat →
            for_loop i count (validateChain_step validate (tamper tip k v self)) log
            = for_loop i count (validateChain_step validate self) log).
  { induction count as [|count IH]; intros i log Hi; [reflexivity|].
    rewrite !for_loop_S.
    rewrite (validateChain_step_tamper validate front) by (auto; lia).
    destruct (validateChain_step validate self i log); simpl; try reflexivity.
    apply IH. lia. }
  rewrite Hloop; [reflexivity|].
  rewrite Hchain, length_app. simpl. lia.
Qed.

(** ** The theorems on the run of the registry *)

Lemma star_store_registry : registry star_store.
Proof.
  split; [split|].
  - reflexivity.
  - reflexivity.
  - intros [|[|[|i]]] o Ho; vm_compute in Ho; inversion Ho; reflexivity.
  - intros [|[|[|i]]] o o' Ho Ho'; vm_compute in Ho, Ho';
      inversion Ho; inversion Ho'; reflexivity.
  - intros [|[|[|i]]] o Ho; vm_compute in Ho; inversion Ho; eexists;
      reflexivity.
Qed.

Lemma fresh_append_run :
  @_addBlock reference 1 1700000100456 fresh_block_store
  = (fst fresh_append, snd fresh_append).
Proof. vm_compute. reflexivity. Qed.

Lemma failed_append_run :
  @_addBlock reference 3 1700000300000 (pending_block tampered_store)
  = (fst failed_append, snd failed_append).
Proof. vm_compute. reflexivity. Qed.

Lemma twice_appended_run :
  @_addBlock reference 1 1700000300000 star_store
  = (fst twice_appended, snd twice_appended).
Proof. vm_compute. reflexivity. Qed.

Lemma tampered_store_checks (i : nat) :
  (i + 1 < length (chain tampered_store))%nat →
  spec_Block_validate (block_nth (blocks_of tampered_store) i)
  = Resolved (negb (i =? 0)%nat).
Proof.
  assert (Hlen : length (chain tampered_store) = 3%nat) by reflexivity.
  rewrite Hlen. destruct i as [|[|i]]; intros Hi;
    [vm_compute; reflexivity..|lia].
Qed.

Lemma big_append_run :
  @_addBlock reference 1 1700000100456 big_block_store
  = (fst big_append, snd big_append).
Proof. vm_compute. reflexivity. Qed.

(** The first star appended to the fresh store. *)
Lemma addBlock_frame_witness :
  length (objects (fst fresh_append)) = length (objects fresh_block_store)
  ∧ (∀ other : loc, other ≠ 1%nat →
       objects (fst fresh_append) !! other = objects fresh_block_store !! other)
  ∧ well_formed (fst fresh_append)
  ∧ match JSON_stringify_object
            (stamp (length (chain fresh_block_store)) 1700000100456
               (previous_hash fresh_block_store)
               (spec_Block_new (star_of "addr1" vega))) with
    | inr _ =>
        chain (fst fresh_append) = chain fresh_block_store ++ [1%nat]
        ∧ getChainHeight (fst fresh_append)
          = Resolved (Z.of_nat (length (chain (fst fresh_append))) - 1)
    | inl e =>
        chain (fst fresh_append) = chain fresh_block_store
        ∧ getChainHeight (fst fresh_append) = getChainHeight fresh_block_store
        ∧ snd fresh_append = Rejected e
    end.
Proof.
  apply (addBlock_frame (H := reference) 1 1700000100456
           (spec_Block_new (star_of "addr1" vega)) fresh_block_store
           (fst fresh_append) (snd fresh_append)).
  - apply well_formedb_sound. vm_compute. reflexivity.
  - vm_compute. reflexivity.
  - exact fresh_append_run.
Defined.

(** The block of a star that [JSON.stringify] refuses: the promise is
    rejected with what it threw. *)
Lemma addBlock_outcome_witness :
  match JSON_stringify_object
          (stamp (length (chain big_block_store)) 1700000100456
             (previous_hash big_block_store)
             (spec_Block_new (star_of "addr1" big_star))) with
  | inr _ =>
      (snd big_append = Resolved 1%nat
       ∧ @validateChain reference (fst big_append) = Resolved Valid)
      ∨ (snd big_append = Rejected ChainIntegrityError
         ∧ ∃ (n : nat) (log : list nat),
             @validateChain reference (fst big_append)
             = Resolved (Invalid n log))
      ∨ (snd big_append = Pending
         ∧ @validateChain reference (fst big_append) = Pending)
  | inl e => snd big_append = Rejected e
  end.
Proof.
  apply (addBlock_outcome (H := reference) 1 1700000100456
           (spec_Block_new (star_of "addr1" big_star)) big_block_store
           (fst big_append) (snd big_append)).
  - apply well_formedb_sound. vm_compute. reflexivity.
  - vm_compute. reflexivity.
  - exact big_append_run.
Defined.

(** The refused block is made and stamped, and is not in the chain. *)
Example refused_append :
  snd big_append
  = Rejected (TypeError "Do not know how to serialize a BigInt")
  ∧ chain (fst big_append) = [0%nat]
  ∧ height (fst big_append) = 0
  ∧ length (objects (fst big_append)) = 2%nat
  ∧ get_prop "height" (default [] (objects (fst big_append) !! 1%nat))
    = VNum (Num 1).
Proof. vm_compute. repeat split. Qed.

(** The block at index 1 of the run of the two stars, appended again: it
    is at index 1 and at index 3, and shows height 3 at both. *)
Lemma addBlock_again_witness :
  chain (fst twice_appended) !! 1%nat = Some 1%nat
  ∧ chain (fst twice_appended) !! length (chain star_store) = Some 1%nat
  ∧ (1 < length (chain star_store))%nat
  ∧ get_prop "height" (block_nth (blocks_of (fst twice_appended)) 1)
    = VNum (Num (Z.of_nat (length (chain star_store))))
  ∧ get_prop "height"
      (block_nth (blocks_of (fst twice_appended)) (length (chain star_store)))
    = VNum (Num (Z.of_nat (length (chain star_store)))).
Proof.
  apply (addBlock_again (H := reference) 1 1 1700000300000
           (block_nth (blocks_of star_store) 1)
           (JSON_text (stamp (length (chain star_store)) 1700000300000
                         (previous_hash star_store)
                         (block_nth (blocks_of star_store) 1)))
           star_store (fst twice_appended) (snd twice_appended)).
  - apply well_formedb_sound. vm_compute. reflexivity.
  - reflexivity.
  - vm_compute. reflexivity.
  - vm_compute. reflexivity.
  - exact twice_appended_run.
Defined.

(** A fresh store whose only block had its hash overwritten is reported
    valid. *)
Lemma validateChain_short_witness :
  validateChain_with spec_Block_validate
    (tamper 0 "hash" (VStr "00") genesis_store)
  = Resolved Valid.
Proof.
  apply (validateChain_short spec_Block_validate
           (tamper 0 "hash" (VStr "00") genesis_store)).
  vm_compute. lia.
Defined.

(** The report on the tampered store. *)
Lemma validateChain_report_witness :
  2%nat = length [0; 0]%nat
  ∧ (0 < 2 <= 2 * (length (chain tampered_store) - 1))%nat
  ∧ Forall (fun i : nat => (i + 1 < length (chain tampered_store))%nat)
      [0; 0]%nat
  ∧ [0; 0]%nat `sublist_of` twice_each (length (chain tampered_store) - 1).
Proof.
  apply (validateChain_report spec_Block_validate tampered_store 2 [0; 0]%nat).
  rewrite (validateChain_with_run spec_Block_validate
             (fun i => negb (i =? 0)%nat)).
  - vm_compute. reflexivity.
  - apply well_formedb_sound. vm_compute. reflexivity.
  - exact tampered_store_checks.
Defined.

(** On the tampered store the verdict is not valid, and index 0 is
    logged. *)
Lemma validateChain_verdict_witness :
  (validateChain_with spec_Block_validate tampered_store = Resolved Valid ↔
   ∀ i, (i + 1 < length (chain tampered_store))%nat →
     negb (i =? 0)%nat = true
     ∧ strict_eq (get_prop "hash" (block_nth (blocks_of tampered_store) i))
         (get_prop "previousBlockHash"
            (block_nth (blocks_of tampered_store) (i + 1)))
       = true)
  ∧ ∀ (n : nat) (log : list nat) (i : nat),
      validateChain_with spec_Block_validate tampered_store
      = Resolved (Invalid n log) →
      (i ∈ log ↔
       (i + 1 < length (chain tampered_store))%nat
       ∧ (negb (i =? 0)%nat = false
          ∨ strict_eq (get_prop "hash" (block_nth (blocks_of tampered_store) i))
              (get_prop "previousBlockHash"
                 (block_nth (blocks_of tampered_store) (i + 1)))
            = false)).
Proof.
  apply (validateChain_verdict spec_Block_validate
           (fun i => negb (i =? 0)%nat) tampered_store).
  - apply well_formedb_sound. vm_compute. reflexivity.
  - exact tampered_store_checks.
Defined.

(** A self-check that rejects on the first block. *)
Lemma validateChain_self_check_rejects_witness :
  validateChain_with (fun _ => Rejected (Error "unreadable")) star_store
  = Pending.
Proof.
  apply (validateChain_self_check_rejects
           (fun _ => Rejected (Error "unreadable")) (fun _ => true)
           star_store (Error "unreadable") 0).
  - apply well_formedb_sound. vm_compute. reflexivity.
  - vm_compute. lia.
  - reflexivity.
  - intros k Hk. lia.
Defined.

(** The body of the last block of the run overwritten. *)
Lemma validateChain_last_unchecked_witness :
  validateChain_with spec_Block_validate
    (tamper 2 "body" (VStr "garbage") star_store)
  = validateChain_with spec_Block_validate star_store.
Proof.
  apply (validateChain_last_unchecked spec_Block_validate [0; 1]%nat 2).
  - reflexivity.
  - rewrite !not_elem_of_cons. repeat split; try discriminate.
    apply not_elem_of_nil.
  - discriminate.
Defined.

(** The hash written by the client on the first block is found there. *)
Lemma getBlockByHash_first_witness :
  ∃ found : option loc,
    getBlockByHash (VStr "00") tampered_store = Resolved found
    ∧ match found with
      | Some block =>
          ∃ i : nat,
            chain tampered_store !! i = Some block
            ∧ strict_eq (get_prop "hash" (block_nth (blocks_of tampered_store) i))
                (VStr "00") = true
            ∧ ∀ j : nat, (j < i)%nat →
                strict_eq
                  (get_prop "hash" (block_nth (blocks_of tampered_store) j))
                  (VStr "00") = false
      | None =>
          ∀ i : nat, (i < length (chain tampered_store))%nat →
            strict_eq (get_prop "hash" (block_nth (blocks_of tampered_store) i))
              (VStr "00") = false
      end.
Proof.
  apply (getBlockByHash_first (VStr "00") tampered_store).
  apply well_formedb_sound. vm_compute. reflexivity.
Defined.

(** The hash of the block at index 1 of the run. *)
Lemma getBlockByHash_stored_witness :
  ∃ j : nat,
    (j <= 1)%nat
    ∧ getBlockByHash (get_prop "hash" (block_nth (blocks_of star_store) 1))
        star_store
      = Resolved (Some j)
    ∧ strict_eq (get_prop "hash" (block_nth (blocks_of star_store) j))
        (get_prop "hash" (block_nth (blocks_of star_store) 1)) = true.
Proof.
  apply (getBlockByHash_stored 1 star_store).
  - exact star_store_registry.
  - vm_compute. lia.
Defined.

(** Height 1 of the run, and the string "1", which is no height. *)
Lemma getBlockByHeight_linear_witness :
  getBlockByHeight (VNum (Num 1)) star_store = Resolved (Some 1%nat)
  ∧ getBlockByHeight (VStr "1") star_store = Resolved None.
Proof.
  rewrite !(getBlockByHeight_linear _ star_store)
    by exact (registry_linear _ star_store_registry).
  split; reflexivity.
Defined.

(** The challenge of addr1 issued at 1700000000.123 and read 299.877
    seconds later. *)
Lemma challenge_round_trip_witness :
  ∃ message : string,
    requestMessageOwnershipVerification (VStr "addr1") 1700000000123
    = Resolved message
    ∧ split ":" message
      = [ToString (VStr "addr1"); Z_toString (1700000000123 / 1000);
         "starRegistry"]
    ∧ messageTime message = Num (1700000000123 / 1000)
    ∧ expired message 1700000300000
      = (300 <=? 1700000300000 / 1000 - 1700000000123 / 1000).
Proof.
  apply (challenge_round_trip (VStr "addr1") 1700000000123 1700000300000).
  - reflexivity.
  - lia.
  - lia.
Defined.

Lemma fresh_append_store :
  fst (@append reference (star_of "addr1" vega) 1700000100456 genesis_store)
  = fst fresh_append.
Proof.
  change (@append reference (star_of "addr1" vega) 1700000100456 genesis_store)
    with (@_addBlock reference 1 1700000100456 fresh_block_store).
  now rewrite fresh_append_run.
Qed.



(** The refused star leaves its block out of the chain; a message that is
    not a string leaves the store, and the promise never settles. *)
Example submitStar_refused :
  snd big_submit
  = Rejected (TypeError "Do not know how to serialize a BigInt")
  ∧ chain (fst big_submit) = chain genesis_store
  ∧ length (objects (fst big_submit)) = 2%nat.
Proof. vm_compute. repeat split. Qed.

Example submitStar_message_not_a_string :
  @submitStar reference (VStr "addr1") (VNum (Num 1700000000)) good_signature
    polaris 1700000299999 1700000299999 genesis_store
  = (genesis_store, Pending).
Proof. reflexivity. Qed.

(** A star submitted and a second [initializeChain] on the run of the two
    stars. *)
Lemma calls_append_only_witness :
  objects star_store
    `prefix_of`
    objects (@calls_run reference
               [SubmitStar (VStr "addr1") (VStr challenge) good_signature polaris
                  1700000299999 1700000299999;
                InitializeChain 1700000300000] star_store)
  ∧ chain star_store
      `prefix_of`
      chain (@calls_run reference
               [SubmitStar (VStr "addr1") (VStr challenge) good_signature polaris
                  1700000299999 1700000299999;
                InitializeChain 1700000300000] star_store).
Proof.
  apply (calls_append_only (H := reference)).
  apply well_formedb_sound. vm_compute. reflexivity.
Defined.

(** The first star appended to the fresh store is found. *)
Lemma getStars_after_append_witness :
  @getStarsByWalletAddress reference (VStr "addr1") genesis_store
  = Resolved (stars_of (VStr "addr1") [])
  ∧ @getStarsByWalletAddress reference (VStr "addr1")
      (fst (@append reference (star_of "addr1" vega) 1700000100456
              genesis_store))
    = Resolved (stars_of (VStr "addr1") []
                ++ stars_of (VStr "addr1") [star_of "addr1" vega]).
Proof.
  apply (getStars_after_append (H := reference) (VStr "addr1")
           (star_of "addr1" vega) 1700000100456
           (JSON_text (@draft reference (star_of "addr1" vega) 1700000100456
                         genesis_store))).
  - apply well_formedb_sound. vm_compute. reflexivity.
  - vm_compute. lia.
  - vm_compute. reflexivity.
  - vm_compute. constructor.
  - rewrite fresh_append_store. vm_compute. reflexivity.
  - split; discriminate.
Defined.

(** The stars of addr1 in the run of the two stars. *)
Lemma getStars_sound_witness :
  (length [star_of "addr1" polaris] <= length (chain star_store) - 1)%nat
  ∧ Forall (fun blockData =>
              strict_eq (owner_of blockData) (VStr "addr1") = true
              ∧ ∃ (j : nat) (block : Block),
                  (1 <= j < length (chain star_store))%nat
                  ∧ block_at star_store j = Return block
                  ∧ spec_Block_getBData block = Resolved blockData)
      [star_of "addr1" polaris].
Proof.
  apply (getStars_sound (H := reference) (VStr "addr1") star_store).
  vm_compute. reflexivity.
Defined.

(** ** The calls of a client, with the collaborators to run with *)

Lemma calls_run_sound (calls : list call) (self : Blockchain) :
  sound self → sound (@calls_run reference calls self).
Proof.
  revert self. induction calls as [|c calls IH]; intros self Hsound; simpl.
  - assumption.
  - apply IH.
    destruct (call_run_store (H := reference) c self) as [->|(data & now & ->)];
      [assumption|now apply append_keeps_sound].
Qed.

(** With SHA-256 and the [Block] class as the specification words it,
    whatever a client calls on a new instance, [validateChain] says valid
    afterwards, and a star submitted next with a challenge that has not
    expired, a signature that verifies, and an address and a star that
    [JSON.stringify] accepts, is accepted: the promise is resolved with the
    new block, which is at the end of the chain. *)
Theorem calls_then_submit (now0 : Z) (calls : list call) :
  @validateChain reference (@calls_run reference calls (@Blockchain_new reference now0))
  = Resolved Valid
  ∧ ∀ (address : value) (message : string) (signature star : value)
      (now now_add : Z),
      expired message now = false →
      stand_in_verify message address signature = inr true →
      accepted address →
      accepted star →
      @submitStar reference address (VStr message) signature star now now_add
        (@calls_run reference calls (@Blockchain_new reference now0))
      = (@extended reference (VObj [("owner", address); ("star", star)]) now_add
           (@calls_run reference calls (@Blockchain_new reference now0)),
         Resolved
           (length (objects (@calls_run reference calls
                               (@Blockchain_new reference now0))))).
Proof.
  pose proof (calls_run_sound calls _ (Blockchain_new_sound now0)) as Hsound.
  split; [now apply sound_valid|].
  intros address message signature star now now_add Hfresh Hsigned
    Haddress Hstar.
  rewrite submitStar_run, Hfresh. unfold verified_submit.
  change (@bitcoinMessage_verify reference) with stand_in_verify.
  rewrite Hsigned. apply append_sound; [assumption|].
  apply accepted_VObj. repeat constructor; assumption.
Qed.

(** The signed challenge of addr1 submitted after a star that was refused
    and a message that was no string. *)
Lemma calls_then_submit_witness :
  @submitStar reference (VStr "addr1") (VStr challenge) good_signature polaris
    1700000299999 1700000299999
    (@calls_run reference
       [SubmitStar (VStr "addr1") (VStr challenge) good_signature big_star
          1700000200000 1700000200000;
        SubmitStar (VStr "addr1") VNull good_signature polaris
          1700000250000 1700000250000]
       (@Blockchain_new reference 1700000000123))
  = (@extended reference (VObj [("owner", VStr "addr1"); ("star", polaris)])
       1700000299999
       (@calls_run reference
          [SubmitStar (VStr "addr1") (VStr challenge) good_signature big_star
             1700000200000 1700000200000;
           SubmitStar (VStr "addr1") VNull good_signature polaris
             1700000250000 1700000250000]
          (@Blockchain_new reference 1700000000123)),
     Resolved
       (length (objects (@calls_run reference
          [SubmitStar (VStr "addr1") (VStr challenge) good_signature big_star
             1700000200000 1700000200000;
           SubmitStar (VStr "addr1") VNull good_signature polaris
             1700000250000 1700000250000]
          (@Blockchain_new reference 1700000000123))))).
Proof.
  destruct (calls_then_submit 1700000000123
              [SubmitStar (VStr "addr1") (VStr challenge) good_signature big_star
                 1700000200000 1700000200000;
               SubmitStar (VStr "addr1") VNull good_signature polaris
                 1700000250000 1700000250000]) as [_ Hsubmit].
  apply Hsubmit.
  - vm_compute. reflexivity.
  - vm_compute. reflexivity.
  - eexists. reflexivity.
  - eexists. reflexivity.
Defined.

(** The two stars of the run are accepted. *)
Lemma appends_succeed_witness :
  Forall succeeded
    (snd (@appends reference two_stars (@Blockchain_new reference 1700000000123)))
  ∧ @validateChain reference
      (fst (@appends reference two_stars (@Blockchain_new reference 1700000000123)))
    = Resolved Valid.
Proof.
  apply (appends_succeed 1700000000123 two_stars).
  repeat (constructor; [eexists; reflexivity|]). constructor.
Defined.
